(** * peeps-ember-orbit: the contact model and the Orbit configuration service

    A shallow embedding of
    - the contact model ([app/models/contact.js]): the [fullName] computed
      property;
    - the configuration service that the application route injects as
      [orbitConfiguration] (the [Ember.Service] at the end of
      [app/routes/contact.js]): [init], [initialize], [configure],
      [clearActiveConfiguration] and the three callbacks that [configure]
      hands to the coordinator's request strategies.

    The Orbit libraries and the browser are not part of the repository.  Their
    calls are the primitive operations of a small state-and-exception monad:
    each call appends an event to a trace and updates the few pieces of state
    that the service reads back ([coordinator.activated], the registered
    sources and strategies, the store's transform log, [localStorage]).
    Promises returned by the library are taken to resolve, so a chain of
    [.then] callbacks is sequential composition; a [throw] in a callback skips
    what follows it.  The constructors of the library's classes are taken to
    return: the model follows which class the service instantiates, not what
    the class then does with the browser. *)

From Stdlib Require Import String Ascii ZArith List Bool Lia.
From stdpp Require Import base strings gmap list.

Open Scope string_scope.
Open Scope list_scope.

(** ** JavaScript values that hold a string or nothing *)

Module Js.

(** A slot that is [undefined]/[null] ([None]) or a string. *)
Definition value := option string.

(** JavaScript truthiness: the empty string is falsy, like [undefined]. *)
Definition truthy (v : value) : bool :=
  match v with
  | Some s => negb (s =? "")
  | None => false
  end.

(** String conversion, as [+] and template literals apply it. *)
Definition to_string (v : value) : string :=
  match v with
  | Some s => s
  | None => "undefined"
  end.

(** [v || d] where [d] is a string literal. *)
Definition or_else (v : value) (d : string) : string :=
  if truthy v then to_string v else d.

(** [s === v] for a string [s]. *)
Definition strict_eq (s : string) (v : value) : bool :=
  match v with
  | Some c => s =? c
  | None => false
  end.

(** A function object used as a condition: it is truthy, whatever the
    function would return if it were called. *)
Definition function_truthy {A B : Type} (f : A → B) : bool := true.

(** A value that is a string with at least one character. *)
Definition nonempty (v : value) (s : string) : Prop := v = Some s ∧ s ≠ "".

(** A value that is absent or the empty string. *)
Definition blank (v : value) : Prop := v = None ∨ v = Some "".

End Js.

(** ** app/models/contact.js *)

Module Contact.

Record t := {
  firstName : Js.value;
  lastName : Js.value;
  email : Js.value;
  twitter : Js.value;
  phoneNumbers : list string
}.

Definition fullName (c : t) : string :=
  let firstName := firstName c in
  let lastName := lastName c in
  if Js.truthy firstName && Js.truthy lastName then
    Js.to_string firstName +:+ " " +:+ Js.to_string lastName
  else if Js.truthy firstName then
    Js.to_string firstName
  else if Js.truthy lastName then
    Js.to_string lastName
  else
    "(No name)".

Definition contact (f l : Js.value) : t :=
  {| firstName := f; lastName := l; email := None; twitter := None;
     phoneNumbers := [] |}.

End Contact.

(** ** The Orbit libraries and the browser, as the service sees them *)

Module Orbit.

(** *** Errors and transforms *)

(** The error classes of [@orbit/data] that the service imports, and any
    other error. *)
Inductive ErrorClass := NetworkError | ClientError | OtherError.

Record JsError := { err_class : ErrorClass; err_message : string }.

(** [e instanceof NetworkError] *)
Definition instanceof_NetworkError (e : JsError) : bool :=
  match err_class e with
  | NetworkError => true
  | _ => false
  end.

Record TransformOptions := { label : Js.value }.

(** A transform: its [id] and its [options] object, which may be missing. *)
Record Transform := { id : string; options : option TransformOptions }.

(** *** Buckets, sources and strategies *)

Inductive BucketClass := IndexedDBBucket | LocalStorageBucket.

Record Bucket := { bucket_class : BucketClass; bucket_namespace : string }.

Inductive SourceClass :=
  StoreSource | JSONAPISource | IndexedDBSource | LocalStorageSource.

(** The settings a source is constructed with.  The [keyMap] and [schema]
    services are the same for every source and are left out. *)
Record Source := {
  source_class : SourceClass;
  source_name : string;
  source_namespace : Js.value;
  source_bucket : option Bucket
}.

(** The function literals that [configure] passes to [RequestStrategy]:
    two [catch] handlers and one [action]. *)
Inductive CatchCallback := CatchPull | CatchPush.

Inductive ActionCallback := PushFailAction.

(** The [action] of a request strategy: the name of a method of the target,
    or a function. *)
Inductive StrategyAction :=
| ActionName (method : string)
| ActionFn (f : ActionCallback).

Inductive Strategy :=
| EventLoggingStrategy
| LogTruncationStrategy
| SyncStrategy (source target : string) (blocking : bool)
| RequestStrategy (source on : string) (target : option string)
    (action : StrategyAction) (blocking : bool)
    (catch : option CatchCallback).

(** The name under which the coordinator files a strategy.  None of the
    strategies built by the service sets [name], so the library derives it
    from the other options. *)
Definition strategy_name (s : Strategy) : string :=
  match s with
  | EventLoggingStrategy => "event-logging"
  | LogTruncationStrategy => "log-truncation"
  | SyncStrategy source target _ =>
      source +:+ ":transform -> " +:+ target +:+ ":sync"
  | RequestStrategy source on target action _ _ =>
      source +:+ ":" +:+ on +:+
      match target with
      | Some t =>
          " -> " +:+ t +:+
          match action with
          | ActionName m => ":" +:+ m
          | ActionFn _ => ""
          end
      | None => ""
      end
  end.

(** *** Observable calls *)

Inductive LogArg := LogStr (s : string) | LogErr (e : JsError).

(** The arrow function handed to [setTimeout]. *)
Inductive TimerCallback := RetryRemoteRequestQueue.

(** [oqb.records()] *)
Inductive Query := Records.

(** One constructor per library or browser call made by the service.
    Sources are referred to by name. *)
Inductive Event :=
| ConsoleLog (args : list LogArg)
| Alert (message : string)
| SetTimeout (callback : TimerCallback) (ms : Z)
| LocalStorageSetItem (key value : string)
| SetOrbitFetch
| CoordinatorActivate
| CoordinatorDeactivate
| AddStrategy (s : Strategy)
| RemoveStrategy (name : string)
| AddSource (s : Source)
| RemoveSource (name : string)
| SourceReset (source : string)
| TransformLogClear (source : string)
| RequestQueueClear (source : string)
| SyncQueueClear (source : string)
| CacheReset (source : string)
| RequestQueueSkip (source : string)
| RequestQueueRetry (source : string)
| SourcePull (source : string) (q : Query)
| StoreSync (transforms : list Transform)
| StoreRollback (transformId : string) (relativePosition : Z).

(** *** State *)

Record Coordinator := {
  activated : bool;
  sources : list Source;
  strategies : list Strategy
}.

(** The properties of the configuration service. *)
Record Service := { mode : Js.value; bucket : option Bucket }.

Record World := {
  indexedDB : bool;                  (* the browser has window.indexedDB *)
  localStorage : gmap string string; (* window.localStorage *)
  service : Service;
  coordinator : Coordinator;
  storeLog : list string;            (* ids held by store.transformLog *)
  backupPull : list Transform;       (* what backup.pull(...) resolves with *)
  timers : list (TimerCallback * Z); (* pending setTimeout callbacks *)
  orbitFetch : bool;                 (* Orbit.fetch has been assigned *)
  trace : list Event
}.

(** [supportsIndexedDB()]: the function that [@orbit/indexeddb] exports
    tells, when it is called, whether the browser has IndexedDB. *)
Definition supportsIndexedDB_result (w : World) : bool := indexedDB w.

(** [supportsIndexedDB] as the service writes it, in the condition of
    [supportsIndexedDB ? ... : ...] without the call parentheses: the
    condition is the function object itself, which is truthy in every
    browser.  The function is not called, so the browser is not asked. *)
Definition supportsIndexedDB (w : World) : bool :=
  Js.function_truthy supportsIndexedDB_result.

Definition with_localStorage (f : gmap string string → gmap string string)
    (w : World) : World :=
  {| indexedDB := indexedDB w;
     localStorage := f (localStorage w);
     service := service w; coordinator := coordinator w;
     storeLog := storeLog w; backupPull := backupPull w;
     timers := timers w; orbitFetch := orbitFetch w; trace := trace w |}.

Definition with_service (f : Service → Service) (w : World) : World :=
  {| indexedDB := indexedDB w;
     localStorage := localStorage w;
     service := f (service w); coordinator := coordinator w;
     storeLog := storeLog w; backupPull := backupPull w;
     timers := timers w; orbitFetch := orbitFetch w; trace := trace w |}.

Definition with_coordinator (f : Coordinator → Coordinator) (w : World)
    : World :=
  {| indexedDB := indexedDB w;
     localStorage := localStorage w;
     service := service w; coordinator := f (coordinator w);
     storeLog := storeLog w; backupPull := backupPull w;
     timers := timers w; orbitFetch := orbitFetch w; trace := trace w |}.

Definition with_storeLog (f : list string → list string) (w : World)
    : World :=
  {| indexedDB := indexedDB w;
     localStorage := localStorage w;
     service := service w; coordinator := coordinator w;
     storeLog := f (storeLog w); backupPull := backupPull w;
     timers := timers w; orbitFetch := orbitFetch w; trace := trace w |}.

Definition with_timers (f : list (TimerCallback * Z) → list (TimerCallback * Z))
    (w : World) : World :=
  {| indexedDB := indexedDB w;
     localStorage := localStorage w;
     service := service w; coordinator := coordinator w;
     storeLog := storeLog w; backupPull := backupPull w;
     timers := f (timers w); orbitFetch := orbitFetch w; trace := trace w |}.

Definition with_orbitFetch (b : bool) (w : World) : World :=
  {| indexedDB := indexedDB w;
     localStorage := localStorage w;
     service := service w; coordinator := coordinator w;
     storeLog := storeLog w; backupPull := backupPull w;
     timers := timers w; orbitFetch := b; trace := trace w |}.

Definition with_trace (f : list Event → list Event) (w : World) : World :=
  {| indexedDB := indexedDB w;
     localStorage := localStorage w;
     service := service w; coordinator := coordinator w;
     storeLog := storeLog w; backupPull := backupPull w;
     timers := timers w; orbitFetch := orbitFetch w; trace := f (trace w) |}.

(** *** The monad: state, and a thrown error that skips what follows *)

Inductive Outcome (A : Type) :=
| Returned (a : A)
| Thrown (e : JsError).
Arguments Returned {A} a.
Arguments Thrown {A} e.

Definition M (A : Type) : Type := World → Outcome A * World.

#[global] Instance M_ret : MRet M := λ A a w, (Returned a, w).

Definition bind {A B} (m : M A) (f : A → M B) : M B := λ w,
  match m w with
  | (Returned a, w') => f a w'
  | (Thrown e, w') => (Thrown e, w')
  end.

#[global] Instance M_bind : MBind M := λ A B f m, bind m f.

(** [let* x := m in k] runs [m], names its result and goes on with [k];
    [m ;; k] is the same when the result is not used. *)
Notation "'let*' x ':=' m 'in' k" := (bind m (λ x, k))
  (at level 10, x name, m at level 100, k at level 200).

Definition throw {A} (e : JsError) : M A := λ w, (Thrown e, w).

Definition gets {A} (f : World → A) : M A := λ w, (Returned (f w), w).

Definition modify (f : World → World) : M () := λ w, (Returned (), f w).

Definition emit (e : Event) : M () := modify (with_trace (λ t, t ++ [e])).

(** [xs.forEach(f)] over a snapshot [xs] of the array. *)
Fixpoint forEach {A} (xs : list A) (f : A → M ()) : M () :=
  match xs with
  | [] => mret ()
  | x :: xs' => f x ;; forEach xs' f
  end.

Definition exec {A} (m : M A) (w : World) : World := snd (m w).

Definition outcome {A} (m : M A) (w : World) : Outcome A := fst (m w).

(** What a JavaScript function hands back to its caller. *)
Inductive Completion := Undefined | Promise.

(** *** Browser calls *)

Definition console_log (args : list LogArg) : M () := emit (ConsoleLog args).

Definition alert (message : string) : M () := emit (Alert message).

Definition setTimeout (callback : TimerCallback) (ms : Z) : M () :=
  emit (SetTimeout callback ms) ;;
  modify (with_timers (λ l, l ++ [(callback, ms)])).

Definition localStorage_getItem (key : string) : M Js.value :=
  gets (λ w, localStorage w !! key).

Definition localStorage_setItem (key value : string) : M () :=
  emit (LocalStorageSetItem key value) ;;
  modify (with_localStorage (insert key value)).

(** *** Coordinator calls *)

Definition set_activated (b : bool) (c : Coordinator) : Coordinator :=
  {| activated := b; sources := sources c; strategies := strategies c |}.

Definition set_sources (f : list Source → list Source) (c : Coordinator)
    : Coordinator :=
  {| activated := activated c; sources := f (sources c);
     strategies := strategies c |}.

Definition set_strategies (f : list Strategy → list Strategy)
    (c : Coordinator) : Coordinator :=
  {| activated := activated c; sources := sources c;
     strategies := f (strategies c) |}.

Definition coordinator_activated : M bool :=
  gets (λ w, activated (coordinator w)).

Definition coordinator_activate : M () :=
  emit CoordinatorActivate ;;
  modify (with_coordinator (set_activated true)).

Definition coordinator_deactivate : M () :=
  emit CoordinatorDeactivate ;;
  modify (with_coordinator (set_activated false)).

Definition coordinator_getSource (name : string) : M (option Source) :=
  gets (λ w, List.find (λ s, source_name s =? name)
               (sources (coordinator w))).

(** The getters [sources] and [strategyNames] build a fresh array on each
    access, so removing entries while iterating over one is harmless. *)
Definition coordinator_sources : M (list Source) :=
  gets (λ w, sources (coordinator w)).

Definition coordinator_strategyNames : M (list string) :=
  gets (λ w, map strategy_name (strategies (coordinator w))).

Definition coordinator_addSource (s : Source) : M () :=
  emit (AddSource s) ;;
  modify (with_coordinator (set_sources (λ l, l ++ [s]))).

Definition coordinator_removeSource (name : string) : M () :=
  emit (RemoveSource name) ;;
  modify (with_coordinator
            (set_sources (List.filter (λ s, negb (source_name s =? name))))).

Definition coordinator_addStrategy (s : Strategy) : M () :=
  emit (AddStrategy s) ;;
  modify (with_coordinator (set_strategies (λ l, l ++ [s]))).

Definition coordinator_removeStrategy (name : string) : M () :=
  emit (RemoveStrategy name) ;;
  modify (with_coordinator
            (set_strategies
               (List.filter (λ s, negb (strategy_name s =? name))))).

(** *** Calls on a source, its log and its queues *)

(** [source.transformLog.clear()]; the store's log is the one the service
    reads back. *)
Definition transformLog_clear (source : string) : M () :=
  emit (TransformLogClear source) ;;
  if source =? "store" then modify (with_storeLog (λ _, [])) else mret ().

Definition requestQueue_clear (source : string) : M () :=
  emit (RequestQueueClear source).

Definition syncQueue_clear (source : string) : M () :=
  emit (SyncQueueClear source).

Definition cache_reset (source : string) : M () := emit (CacheReset source).

Definition source_reset (source : string) : M () := emit (SourceReset source).

Definition requestQueue_skip (source : string) : M () :=
  emit (RequestQueueSkip source).

Definition requestQueue_retry (source : string) : M () :=
  emit (RequestQueueRetry source).

Definition source_pull (source : string) (q : Query) : M (list Transform) :=
  emit (SourcePull source q) ;;
  gets backupPull.

(** [store.sync(transforms)] applies the transforms and logs their ids. *)
Definition store_sync (transforms : list Transform) : M () :=
  emit (StoreSync transforms) ;;
  modify (with_storeLog (λ l, l ++ map id transforms)).

(** [store.transformLog.contains(id)] *)
Definition store_transformLog_contains (transformId : string) : M bool :=
  gets (λ w, existsb (String.eqb transformId) (storeLog w)).

Fixpoint index_of (x : string) (l : list string) : option nat :=
  match l with
  | [] => None
  | y :: l' => if x =? y then Some 0%nat else S <$> index_of x l'
  end.

(** The log after [rollback(transformId, relativePosition)]: the entries up
    to the position of [transformId] moved by [relativePosition], the entry
    itself included at offset 0.  An id that is not logged, or a position
    outside the log, rejects the promise and leaves the log as it is. *)
Definition log_rollback (transformId : string) (relativePosition : Z)
    (log : list string) : list string :=
  match index_of transformId log with
  | Some n =>
      let position := (Z.of_nat n + 1 + relativePosition)%Z in
      if ((0 <=? position) && (position <=? Z.of_nat (length log)))%Z
      then firstn (Z.to_nat position) log
      else log
  | None => log
  end.

(** [store.rollback(transformId, relativePosition)].  The service does not
    wait for the promise it returns; the log is updated at the call. *)
Definition store_rollback (transformId : string) (relativePosition : Z)
    : M () :=
  emit (StoreRollback transformId relativePosition) ;;
  modify (with_storeLog (log_rollback transformId relativePosition)).

(** When a timer fires its callback runs. *)
Definition run_timer (callback : TimerCallback) : M () :=
  match callback with
  | RetryRemoteRequestQueue => requestQueue_retry "remote"
  end.

End Orbit.

(** ** The configuration service *)

Module OrbitConfiguration.
Import Orbit.

Definition availableModes : list (string * string) :=
  [ ("memory-only", "store");
    ("offline-only", "store + backup");
    ("pessimistic-server", "store + remote");
    ("optimistic-server", "store + remote + backup") ].

Definition set_mode (m : Js.value) (s : Service) : Service :=
  {| mode := m; bucket := bucket s |}.

Definition set_bucket (b : option Bucket) (s : Service) : Service :=
  {| mode := mode s; bucket := b |}.

Definition init : M () :=
  let* supportsIndexedDB := gets supportsIndexedDB in
  let BucketClass :=
    if supportsIndexedDB then IndexedDBBucket else LocalStorageBucket in
  let bucket :=
    {| bucket_class := BucketClass; bucket_namespace := "peeps-settings" |} in
  modify (with_service (set_bucket (Some bucket))).

(** *** A session of the application *)

(** The store service, which ember-orbit registers with the coordinator
    under the name [store]. *)
Definition store : Source :=
  {| source_class := StoreSource; source_name := "store";
     source_namespace := None; source_bucket := None |}.

(** The world when the application boots, before the service is created:
    nothing is configured, the coordinator holds the store alone, and
    [localStorage] is whatever earlier sessions left.  [indexedDB] tells
    whether the browser has IndexedDB. *)
Definition boot (indexedDB : bool) (stored : gmap string string)
    (pulled : list Transform) : World :=
  {| indexedDB := indexedDB;
     localStorage := stored;
     service := {| mode := None; bucket := None |};
     coordinator :=
       {| activated := false; sources := [store]; strategies := [] |};
     storeLog := [];
     backupPull := pulled;
     timers := [];
     orbitFetch := false;
     trace := [] |}.

(** *** The callbacks given to the request strategies *)

Definition dquote : string := String "034"%char EmptyString.

(** The [catch] of the [beforeQuery] strategy; [source] and [target] are
    those of the strategy the handler belongs to. *)
Definition catch_pull (source target : string) (e : JsError)
    : M Completion :=
  console_log [LogStr "error performing remote.pull"; LogErr e] ;;
  requestQueue_skip source ;;
  requestQueue_skip target ;;
  throw e.

(** The [catch] of the blocking [beforeUpdate] strategy. *)
Definition catch_push (source target : string) (e : JsError)
    : M Completion :=
  console_log [LogStr "error performing remote.push"; LogErr e] ;;
  requestQueue_skip source ;;
  requestQueue_skip target ;;
  throw e.

(** The [action] of the [pushFail] strategy.  It closes over the [remote]
    source and the [store]. *)
Definition pushFail_action (transform : Transform) (e : JsError)
    : M Completion :=
  if instanceof_NetworkError e then
    console_log [LogStr "NetworkError - will try again soon"] ;;
    setTimeout RetryRemoteRequestQueue 5000 ;;
    mret Undefined
  else
    let label :=
      match options transform with
      | Some o => label o
      | None => None
      end in
    (if Js.truthy label then
       alert ("Unable to complete " +:+ dquote +:+ Js.to_string label
                +:+ dquote)
     else
       alert "Unable to complete operation") ;;
    let* contains := store_transformLog_contains (id transform) in
    (if contains then
       console_log [LogStr "Rolling back - transform:";
                    LogStr (id transform)] ;;
       store_rollback (id transform) (-1)
     else mret ()) ;;
    requestQueue_skip "remote" ;;
    mret Promise.

(** *** The service methods *)

(** The arrow function that [clearActiveConfiguration] passes to
    [coordinator.sources.forEach]. *)
Definition reset_source (source : Source) : M () :=
  transformLog_clear (source_name source) ;;
  requestQueue_clear (source_name source) ;;
  syncQueue_clear (source_name source) ;;
  if source_name source =? "store" then
    cache_reset (source_name source)
  else
    coordinator_removeSource (source_name source).

Definition clearActiveConfiguration : M () :=
  let* activated := coordinator_activated in
  if activated then
    coordinator_deactivate ;;
    console_log [LogStr "[orbit-configuration]";
                 LogStr "resetting browser storage"] ;;
    let* backup := coordinator_getSource "backup" in
    match backup with
    | Some backup => source_reset (source_name backup)
    | None => mret ()
    end ;;
    console_log [LogStr "[orbit-configuration]";
                 LogStr "resetting sources and strategies"] ;;
    let* names := coordinator_strategyNames in
    forEach names coordinator_removeStrategy ;;
    let* sources := coordinator_sources in
    forEach sources reset_source
  else
    mret ().

Definition configure (mode : string) : M Completion :=
  let* current := gets (λ w, Orbit.mode (service w)) in
  if Js.strict_eq mode current then
    mret Undefined
  else
    console_log [LogStr "[orbit-configuration]"; LogStr "mode"; LogStr mode] ;;
    let* bucket := gets (λ w, bucket (service w)) in
    clearActiveConfiguration ;;
    modify (with_service (set_mode (Some mode))) ;;
    localStorage_setItem "peeps-mode" mode ;;
    let pessimisticMode := mode =? "pessimistic-server" in
    coordinator_addStrategy EventLoggingStrategy ;;
    coordinator_addStrategy LogTruncationStrategy ;;
    (if (mode =? "pessimistic-server") || (mode =? "optimistic-server") then
       modify (with_orbitFetch true) ;;
       let remote :=
         {| source_class := JSONAPISource; source_name := "remote";
            source_namespace := None; source_bucket := bucket |} in
       coordinator_addSource remote ;;
       coordinator_addStrategy
         (SyncStrategy "remote" "store" pessimisticMode) ;;
       coordinator_addStrategy
         (RequestStrategy "store" "beforeQuery" (Some "remote")
            (ActionName "pull") pessimisticMode (Some CatchPull)) ;;
       if pessimisticMode then
         coordinator_addStrategy
           (RequestStrategy "store" "beforeUpdate" (Some "remote")
              (ActionName "push") true (Some CatchPush))
       else
         coordinator_addStrategy
           (RequestStrategy "store" "beforeUpdate" (Some "remote")
              (ActionName "push") false None) ;;
         coordinator_addStrategy
           (RequestStrategy "remote" "pushFail" None
              (ActionFn PushFailAction) true None)
     else mret ()) ;;
    if (mode =? "offline-only") || (mode =? "optimistic-server") then
      let* supportsIndexedDB := gets supportsIndexedDB in
      let BackupClass :=
        if supportsIndexedDB then IndexedDBSource else LocalStorageSource in
      let backup :=
        {| source_class := BackupClass; source_name := "backup";
           source_namespace := Some "peeps"; source_bucket := bucket |} in
      coordinator_addSource backup ;;
      coordinator_addStrategy (SyncStrategy "store" "backup" true) ;;
      coordinator_activate ;;
      let* transform := source_pull (source_name backup) Records in
      store_sync transform ;;
      transformLog_clear (source_name backup) ;;
      transformLog_clear "store" ;;
      coordinator_activate ;;
      mret Promise
    else
      coordinator_activate ;;
      mret Promise.

Definition initialize : M Completion :=
  let* stored := localStorage_getItem "peeps-mode" in
  let mode := Js.or_else stored "offline-only" in
  configure mode.

(** *** When the coordinator runs the callbacks

    While the coordinator is active, a request strategy listens to the event
    [on] of its [source].  A failed [remote.push(transform)] makes [remote]
    emit [pushFail] with the transform and the error, which runs the [action]
    functions of the strategies listening to it; the rejection then reaches
    the strategy that issued the request, whose [catch], if it has one, is
    called with the error.  A failed [remote.pull(query)] reaches the issuing
    strategy's [catch] in the same way. *)

Definition run_action (f : ActionCallback) (transform : Transform)
    (e : JsError) : M Completion :=
  match f with
  | PushFailAction => pushFail_action transform e
  end.

Definition run_catch (f : CatchCallback) (source target : string)
    (e : JsError) : M Completion :=
  match f with
  | CatchPull => catch_pull source target e
  | CatchPush => catch_push source target e
  end.

(** Running a callback for its effects only. *)
Definition discard {A} (m : M A) : M () := m ;; mret ().

Definition listeners : M (list Strategy) :=
  gets (λ w, if activated (coordinator w) then strategies (coordinator w)
             else []).

(** A strategy's part when [source] emits [event] for a failed transform. *)
Definition on_fail_event (source event : string) (transform : Transform)
    (e : JsError) (s : Strategy) : M () :=
  match s with
  | RequestStrategy src on _ (ActionFn f) _ _ =>
      if (src =? source) && (on =? event) then
        discard (run_action f transform e)
      else mret ()
  | _ => mret ()
  end.

(** A strategy's part when the request [target.method(...)] it issued is
    rejected. *)
Definition on_rejection (target method : string) (e : JsError)
    (s : Strategy) : M () :=
  match s with
  | RequestStrategy src _ (Some tgt) (ActionName m) _ (Some c) =>
      if (tgt =? target) && (m =? method) then
        discard (run_catch c src tgt e)
      else mret ()
  | _ => mret ()
  end.

Definition remote_push_fails (transform : Transform) (e : JsError) : M () :=
  let* ss := listeners in
  forEach ss (on_fail_event "remote" "pushFail" transform e) ;;
  forEach ss (on_rejection "remote" "push" e).

Definition remote_pull_fails (e : JsError) : M () :=
  let* ss := listeners in
  forEach ss (on_rejection "remote" "pull" e).

(** *** Closed forms used in the statements *)

Definition is_store (s : Source) : bool := source_name s =? "store".

(** The calls [clearActiveConfiguration] makes for one registered source. *)
Definition source_teardown (s : Source) : list Event :=
  [ TransformLogClear (source_name s);
    RequestQueueClear (source_name s);
    SyncQueueClear (source_name s);
    if is_store s then CacheReset (source_name s)
    else RemoveSource (source_name s) ].

(** The calls [clearActiveConfiguration] makes on a coordinator. *)
Definition teardown_events (c : Coordinator) : list Event :=
  if activated c then
    [ CoordinatorDeactivate;
      ConsoleLog [LogStr "[orbit-configuration]";
                  LogStr "resetting browser storage"] ]
    ++ match List.find (λ s, source_name s =? "backup") (sources c) with
       | Some b => [SourceReset (source_name b)]
       | None => []
       end
    ++ [ ConsoleLog [LogStr "[orbit-configuration]";
                     LogStr "resetting sources and strategies"] ]
    ++ map (λ s, RemoveStrategy (strategy_name s)) (strategies c)
    ++ flat_map source_teardown (sources c)
  else [].

(** The world [clearActiveConfiguration] leaves. *)
Definition torn_down (w : World) : World :=
  if activated (coordinator w) then
    {| indexedDB := indexedDB w;
       localStorage := localStorage w;
       service := service w;
       coordinator :=
         {| activated := false;
            sources := List.filter is_store (sources (coordinator w));
            strategies := [] |};
       storeLog :=
         if existsb is_store (sources (coordinator w)) then []
         else storeLog w;
       backupPull := backupPull w;
       timers := timers w;
       orbitFetch := orbitFetch w;
       trace := trace w ++ teardown_events (coordinator w) |}
  else w.

(** The two tests [configure] makes on the mode. *)
Definition is_server (mode : string) : bool :=
  (mode =? "pessimistic-server") || (mode =? "optimistic-server").

Definition has_backup (mode : string) : bool :=
  (mode =? "offline-only") || (mode =? "optimistic-server").

Definition remote_source (bucket : option Bucket) : Source :=
  {| source_class := JSONAPISource; source_name := "remote";
     source_namespace := None; source_bucket := bucket |}.

(** The backup source, [indexedDB] being the value of the condition of
    [supportsIndexedDB ? IndexedDBSource : LocalStorageSource]. *)
Definition backup_source (indexedDB : bool) (bucket : option Bucket)
    : Source :=
  {| source_class := if indexedDB then IndexedDBSource else LocalStorageSource;
     source_name := "backup";
     source_namespace := Some "peeps"; source_bucket := bucket |}.

(** The strategies and sources [configure] adds for a mode, in order. *)
Definition setup_events (mode : string) (indexedDB : bool)
    (bucket : option Bucket) : list Event :=
  [ AddStrategy EventLoggingStrategy; AddStrategy LogTruncationStrategy ]
  ++ (if is_server mode then
        [ AddSource (remote_source bucket);
          AddStrategy
            (SyncStrategy "remote" "store" (mode =? "pessimistic-server"));
          AddStrategy
            (RequestStrategy "store" "beforeQuery" (Some "remote")
               (ActionName "pull") (mode =? "pessimistic-server")
               (Some CatchPull)) ]
        ++ (if mode =? "pessimistic-server" then
              [ AddStrategy
                  (RequestStrategy "store" "beforeUpdate" (Some "remote")
                     (ActionName "push") true (Some CatchPush)) ]
            else
              [ AddStrategy
                  (RequestStrategy "store" "beforeUpdate" (Some "remote")
                     (ActionName "push") false None);
                AddStrategy
                  (RequestStrategy "remote" "pushFail" None
                     (ActionFn PushFailAction) true None) ])
      else [])
  ++ (if has_backup mode then
        [ AddSource (backup_source indexedDB bucket);
          AddStrategy (SyncStrategy "store" "backup" true) ]
      else []).

(** The calls [configure] ends with, from the first activation on. *)
Definition activation_events (mode : string) (pulled : list Transform)
    : list Event :=
  if has_backup mode then
    [ CoordinatorActivate;
      SourcePull "backup" Records;
      StoreSync pulled;
      TransformLogClear "backup";
      TransformLogClear "store";
      CoordinatorActivate ]
  else [ CoordinatorActivate ].

Definition added_sources (evs : list Event) : list Source :=
  flat_map (λ e, match e with AddSource s => [s] | _ => [] end) evs.

Definition added_strategies (evs : list Event) : list Strategy :=
  flat_map (λ e, match e with AddStrategy s => [s] | _ => [] end) evs.

(** All the calls of a [configure(mode)] that passes the same-mode guard. *)
Definition configure_events (mode : string) (w : World) : list Event :=
  [ ConsoleLog [LogStr "[orbit-configuration]"; LogStr "mode"; LogStr mode] ]
  ++ teardown_events (coordinator w)
  ++ [ LocalStorageSetItem "peeps-mode" mode ]
  ++ setup_events mode (supportsIndexedDB w) (bucket (service w))
  ++ activation_events mode (backupPull w).

(** The world such a call leaves. *)
Definition reconfigured (mode : string) (w : World) : World :=
  let setup := setup_events mode (supportsIndexedDB w) (bucket (service w)) in
  {| indexedDB := indexedDB w;
     localStorage := <["peeps-mode" := mode]> (localStorage w);
     service := {| mode := Some mode; bucket := bucket (service w) |};
     coordinator :=
       {| activated := true;
          sources :=
            sources (coordinator (torn_down w)) ++ added_sources setup;
          strategies :=
            strategies (coordinator (torn_down w)) ++ added_strategies setup |};
     storeLog := if has_backup mode then [] else storeLog (torn_down w);
     backupPull := backupPull w;
     timers := timers w;
     orbitFetch := is_server mode || orbitFetch w;
     trace := trace w ++ configure_events mode w |}.

(** The strategies [configure mode] registers; they depend on the mode alone. *)
Definition installed (mode : string) : list Strategy :=
  added_strategies (setup_events mode true None).

(** An active coordinator that holds exactly the strategies of [mode]. *)
Definition in_mode (mode : string) (w : World) : Prop :=
  activated (coordinator w) = true ∧
  strategies (coordinator w) = installed mode.

(** [transform.options && transform.options.label] *)
Definition transform_label (t : Transform) : Js.value :=
  match options t with
  | Some o => label o
  | None => None
  end.

(** The text of the alert that the [pushFail] action shows for a transform. *)
Definition alert_text (t : Transform) : string :=
  if Js.truthy (transform_label t) then
    "Unable to complete " +:+ dquote +:+ Js.to_string (transform_label t)
    +:+ dquote
  else "Unable to complete operation".

(** The calls that register a strategy or a source. *)
Definition is_addition (e : Event) : bool :=
  match e with
  | AddStrategy _ | AddSource _ => true
  | _ => false
  end.

(** The events a computation adds to the trace of a world. *)
Definition events {A} (m : M A) (w : World) : list Event :=
  skipn (length (trace w)) (trace (exec m w)).

End OrbitConfiguration.

(** ** Sample sessions *)

Module Scenarios.
Import Orbit OrbitConfiguration.

(** A browser with IndexedDB, nothing stored, an empty backup: the service is
    created, then [configure mode] is called. *)
Definition session (mode : string) : World :=
  exec (configure mode) (exec init (boot true ∅ [])).

(** The same after the application has logged three transforms. *)
Definition busy_session (mode : string) : World :=
  with_storeLog (λ _, ["t1"; "t2"; "t3"]) (session mode).

Definition add_contact : Transform :=
  {| id := "t2"; options := Some {| label := Some "Add contact" |} |}.

Definition unlabelled : Transform := {| id := "t9"; options := None |}.

Definition offline : JsError :=
  {| err_class := NetworkError; err_message := "Failed to fetch" |}.

Definition unprocessable : JsError :=
  {| err_class := ClientError; err_message := "Unprocessable Entity" |}.

End Scenarios.

(** ** The application route and what happens during a session *)

Module Session.
Import Orbit OrbitConfiguration.

(** The [beforeModel] hook of the application route:
    [get(this, 'orbitConfiguration').initialize()]. *)
Definition beforeModel : M Completion := initialize.

(** The application boots: the service is instantiated, which runs [init],
    and the router calls the application route's [beforeModel]. *)
Definition boot_application : M Completion := init ;; beforeModel.

(** The store applies a transform and logs its id. *)
Definition store_logs (t : Transform) : M () :=
  modify (with_storeLog (λ l, l ++ [id t])).

(** The oldest pending timer fires: it leaves the pending list and its
    callback runs.  All timers of the service have the same delay, so they
    fire in the order they were set. *)
Definition fire_timer : M () :=
  let* pending := gets timers in
  match pending with
  | [] => mret ()
  | (callback, _) :: rest =>
      modify (with_timers (λ _, rest)) ;;
      run_timer callback
  end.

(** What can happen, one event-loop turn at a time, once the application has
    booted. *)
Inductive Op :=
| Configure (mode : string)
| Initialize
| Logs (t : Transform)
| PushFails (t : Transform) (e : JsError)
| PullFails (e : JsError)
| TimerFires.

Definition step (op : Op) : M () :=
  match op with
  | Configure mode => discard (configure mode)
  | Initialize => discard beforeModel
  | Logs t => store_logs t
  | PushFails t e => remote_push_fails t e
  | PullFails e => remote_pull_fails e
  | TimerFires => fire_timer
  end.

(** An error thrown in one turn does not stop the later ones. *)
Definition run (ops : list Op) (w : World) : World :=
  fold_left (λ w op, exec (step op) w) ops w.

(** Two worlds with the same configuration: browser, stored settings,
    service properties and coordinator. *)
Definition same_configuration (w w' : World) : Prop :=
  indexedDB w' = indexedDB w ∧
  localStorage w' = localStorage w ∧
  service w' = service w ∧
  coordinator w' = coordinator w.

(** A computation that leaves the configuration as it is, whatever the world
    it starts in and however it ends. *)
Definition keeps {A} (m : M A) : Prop :=
  ∀ w, same_configuration w (exec m w).

(** The service, the stored setting and the coordinator agree. *)
Definition consistent (w : World) : Prop :=
  match Orbit.mode (service w) with
  | None =>
      activated (coordinator w) = false ∧
      strategies (coordinator w) = [] ∧
      sources (coordinator w) = [store]
  | Some m =>
      activated (coordinator w) = true ∧
      strategies (coordinator w) = installed m ∧
      sources (coordinator w) =
        store :: added_sources
                   (setup_events m (supportsIndexedDB w) (bucket (service w))) ∧
      localStorage w !! "peeps-mode" = Some m
  end.

End Session.

(** * Properties *)

(** ** Truthiness *)

Module JsFacts.

Lemma truthy_nonempty v s :
  Js.nonempty v s → Js.truthy v = true ∧ Js.to_string v = s.
Proof.
  intros [-> Hs]. split; [|reflexivity].
  simpl. apply negb_true_iff. now apply String.eqb_neq.
Qed.

Lemma truthy_blank v : Js.blank v → Js.truthy v = false.
Proof. intros [-> | ->]; reflexivity. Qed.

End JsFacts.

(** ** The contact model *)

Module ContactSpec.
Import Contact.

Example fullName_both :
  fullName (contact (Some "Ada") (Some "Lovelace")) = "Ada Lovelace".
Proof. reflexivity. Qed.

Example fullName_first_only : fullName (contact (Some "Ada") (Some "")) = "Ada".
Proof. reflexivity. Qed.

Example fullName_last_only : fullName (contact None (Some "Lovelace")) = "Lovelace".
Proof. reflexivity. Qed.

Example fullName_none : fullName (contact (Some "") None) = "(No name)".
Proof. reflexivity. Qed.

(** C10.  For every contact, [fullName] is: first name, a space, last name
    when both are non-empty; the first name when only it is non-empty; the
    last name when only it is non-empty; and "(No name)" when both are empty
    or absent. *)
Theorem fullName_cases (c : t) :
  (∀ f l, Js.nonempty (firstName c) f → Js.nonempty (lastName c) l →
          fullName c = f +:+ " " +:+ l) ∧
  (∀ f, Js.nonempty (firstName c) f → Js.blank (lastName c) →
        fullName c = f) ∧
  (∀ l, Js.blank (firstName c) → Js.nonempty (lastName c) l →
        fullName c = l) ∧
  (Js.blank (firstName c) → Js.blank (lastName c) →
   fullName c = "(No name)").
Proof.
  unfold fullName. repeat split.
  - intros f l [-> ->]%JsFacts.truthy_nonempty [-> ->]%JsFacts.truthy_nonempty.
    reflexivity.
  - intros f [-> ->]%JsFacts.truthy_nonempty ->%JsFacts.truthy_blank. reflexivity.
  - intros l ->%JsFacts.truthy_blank [-> ->]%JsFacts.truthy_nonempty. reflexivity.
  - intros ->%JsFacts.truthy_blank ->%JsFacts.truthy_blank. reflexivity.
Qed.

Lemma fullName_cases_witness :
  fullName (contact (Some "Ada") (Some "Lovelace")) = "Ada" +:+ " " +:+ "Lovelace" ∧
  fullName (contact (Some "Ada") None) = "Ada" ∧
  fullName (contact (Some "") (Some "Lovelace")) = "Lovelace" ∧
  fullName (contact None (Some "")) = "(No name)".
Proof.
  split; [|split; [|split]].
  - apply (proj1 (fullName_cases (contact (Some "Ada") (Some "Lovelace"))));
      split; [reflexivity | discriminate | reflexivity | discriminate].
  - apply (proj1 (proj2 (fullName_cases (contact (Some "Ada") None))));
      [split; [reflexivity | discriminate] | left; reflexivity].
  - apply (proj1 (proj2 (proj2
             (fullName_cases (contact (Some "") (Some "Lovelace"))))));
      [right; reflexivity | split; [reflexivity | discriminate]].
  - apply (proj2 (proj2 (proj2 (fullName_cases (contact None (Some ""))))));
      [left; reflexivity | right; reflexivity].
Defined.

End ContactSpec.

(** ** The service on sample sessions *)

Module ConfigurationExamples.
Import Orbit OrbitConfiguration Scenarios.

Example first_run_is_offline_only :
  Orbit.mode (service (exec initialize (exec init (boot true ∅ []))))
  = Some "offline-only".
Proof. reflexivity. Qed.

Example first_run_events :
  events (configure "memory-only") (exec init (boot true ∅ [])) =
  [ ConsoleLog [LogStr "[orbit-configuration]"; LogStr "mode";
                LogStr "memory-only"];
    LocalStorageSetItem "peeps-mode" "memory-only";
    AddStrategy EventLoggingStrategy;
    AddStrategy LogTruncationStrategy;
    CoordinatorActivate ].
Proof. reflexivity. Qed.

Example strategies_of_pessimistic_server :
  map strategy_name (installed "pessimistic-server") =
  [ "event-logging"; "log-truncation"; "remote:transform -> store:sync";
    "store:beforeQuery -> remote:pull"; "store:beforeUpdate -> remote:push" ].
Proof. reflexivity. Qed.

Example strategies_of_optimistic_server :
  map strategy_name (installed "optimistic-server") =
  [ "event-logging"; "log-truncation"; "remote:transform -> store:sync";
    "store:beforeQuery -> remote:pull"; "store:beforeUpdate -> remote:push";
    "remote:pushFail"; "store:transform -> backup:sync" ].
Proof. reflexivity. Qed.

Example unknown_mode_adds_no_source :
  sources (coordinator (session "something-else")) = [store].
Proof. reflexivity. Qed.

Example rollback_before : log_rollback "t2" (-1) ["t1"; "t2"; "t3"] = ["t1"].
Proof. reflexivity. Qed.

Example rollback_to : log_rollback "t2" 0 ["t1"; "t2"; "t3"] = ["t1"; "t2"].
Proof. reflexivity. Qed.

Example rollback_unknown :
  log_rollback "t7" (-1) ["t1"; "t2"; "t3"] = ["t1"; "t2"; "t3"].
Proof. reflexivity. Qed.

Example alert_for_labelled_transform :
  alert_text add_contact
  = "Unable to complete " +:+ dquote +:+ "Add contact" +:+ dquote.
Proof. reflexivity. Qed.

Example alert_for_unlabelled_transform :
  alert_text unlabelled = "Unable to complete operation".
Proof. reflexivity. Qed.

Example retry_timer_fires :
  events (run_timer RetryRemoteRequestQueue) (session "optimistic-server")
  = [RequestQueueRetry "remote"].
Proof. reflexivity. Qed.

End ConfigurationExamples.

(** ** Lemmas about the configuration service *)

Module ConfigurationFacts.
Import Orbit OrbitConfiguration.

(** *** Lists *)

Lemma filter_all_true {A} (l : list A) : List.filter (λ _, true) l = l.
Proof. induction l as [|x l IH]; cbn; [reflexivity | now rewrite IH]. Qed.

Lemma filter_twice {A} (f g : A → bool) (l : list A) :
  List.filter f (List.filter g l) = List.filter (λ x, g x && f x) l.
Proof.
  induction l as [|x l IH]; cbn; [reflexivity|].
  destruct (g x); cbn; [destruct (f x)|]; now rewrite IH.
Qed.

Lemma filter_none {A} (f : A → bool) (l : list A) :
  (∀ x, In x l → f x = false) → List.filter f l = [].
Proof.
  induction l as [|x l IH]; cbn; intros H; [reflexivity|].
  rewrite (H x) by now left. apply IH. intros y Hy. apply H. now right.
Qed.

Lemma existsb_eqb_in (x : string) (l : list string) :
  In x l → existsb (String.eqb x) l = true.
Proof.
  intros H. apply existsb_exists. exists x. split; [exact H|].
  apply String.eqb_refl.
Qed.

(** *** Running the monad symbolically *)

(** Unfolds the primitive calls and the record updates, and nothing else. *)
Ltac run_calls :=
  cbv [mret mbind M_ret M_bind bind gets modify emit throw exec outcome
       console_log alert setTimeout localStorage_getItem localStorage_setItem
       coordinator_activated coordinator_activate coordinator_deactivate
       coordinator_getSource coordinator_sources coordinator_strategyNames
       coordinator_addSource coordinator_removeSource
       coordinator_addStrategy coordinator_removeStrategy
       requestQueue_clear syncQueue_clear cache_reset source_reset
       requestQueue_skip requestQueue_retry source_pull store_sync
       store_transformLog_contains store_rollback
       with_localStorage with_service with_coordinator with_storeLog
       with_timers with_orbitFetch with_trace
       set_activated set_sources set_strategies set_mode set_bucket
       supportsIndexedDB Js.function_truthy indexedDB localStorage service
       coordinator storeLog backupPull
       timers orbitFetch trace activated sources strategies mode bucket
       fst snd].

Ltac open_world w := destruct w as [? ? [? ?] [? ? ?] ? ? ? ? ?].

(** *** Loops of [clearActiveConfiguration] *)

Lemma forEach_removeStrategy (names : list string) (w : World) :
  forEach names coordinator_removeStrategy w =
  (Returned (),
   with_trace (λ t, t ++ map RemoveStrategy names)
     (with_coordinator
        (set_strategies
           (List.filter
              (λ s, negb (existsb (String.eqb (strategy_name s)) names))))
        w)).
Proof.
  revert w. induction names as [|n names IH]; intros w.
  - open_world w. cbn [forEach existsb negb map]. run_calls.
    now rewrite filter_all_true, app_nil_r.
  - cbn [forEach]. unfold mbind, M_bind, bind at 1.
    unfold coordinator_removeStrategy at 1. run_calls.
    rewrite IH. open_world w. run_calls.
    rewrite filter_twice, <- app_assoc. cbn [map app existsb].
    do 3 f_equal. apply filter_ext. intros s.
    now rewrite negb_orb.
Qed.

Lemma forEach_reset_source (l : list Source) (w : World) :
  forEach l reset_source w =
  (Returned (),
   with_trace (λ t, t ++ flat_map source_teardown l)
     (with_coordinator
        (set_sources
           (List.filter
              (λ s, negb (existsb
                            (λ x, negb (is_store x)
                                  && (source_name s =? source_name x)) l))))
        (with_storeLog (λ lg, if existsb is_store l then [] else lg) w))).
Proof.
  revert w. induction l as [|a l IH]; intros w.
  - open_world w. cbn [forEach existsb negb flat_map]. run_calls.
    now rewrite filter_all_true, app_nil_r.
  - cbn [forEach]. unfold mbind, M_bind, bind at 1.
    unfold reset_source at 1, transformLog_clear.
    cbn [existsb flat_map]. unfold source_teardown at 1.
    change (source_name a =? "store") with (is_store a).
    destruct (is_store a) eqn:Ea; run_calls;
      rewrite IH; open_world w; run_calls;
      rewrite ?filter_twice, <- !app_assoc; cbn [app orb negb andb];
      do 2 f_equal; try reflexivity.
    + now destruct (existsb is_store l).
    + f_equal. apply filter_ext. intros s. now rewrite negb_orb.
Qed.

Lemma remove_all_strategies (l : list Strategy) :
  List.filter
    (λ s, negb (existsb (String.eqb (strategy_name s)) (map strategy_name l)))
    l = [].
Proof.
  apply filter_none. intros s Hs. apply negb_false_iff, existsb_eqb_in.
  now apply in_map.
Qed.

Lemma keep_the_store (l : list Source) :
  List.filter
    (λ s, negb (existsb (λ x, negb (is_store x)
                              && (source_name s =? source_name x)) l))
    l = List.filter is_store l.
Proof.
  apply filter_ext_in. intros s Hs. destruct (is_store s) eqn:Es.
  - apply negb_true_iff.
    destruct (existsb _ l) eqn:Ex; [|reflexivity].
    apply existsb_exists in Ex as (x & _ & Hx).
    apply andb_true_iff in Hx as [Hx1 Hx2].
    apply String.eqb_eq in Hx2. unfold is_store in *.
    rewrite <- Hx2, Es in Hx1. discriminate.
  - apply negb_false_iff, existsb_exists. exists s. split; [exact Hs|].
    now rewrite Es, String.eqb_refl.
Qed.

Lemma clearActiveConfiguration_run (w : World) :
  clearActiveConfiguration w = (Returned (), torn_down w).
Proof.
  unfold clearActiveConfiguration, torn_down, teardown_events.
  open_world w. run_calls. destruct activated0; [|reflexivity].
  destruct (List.find _ sources0) as [b|];
    run_calls; rewrite forEach_removeStrategy; run_calls;
    rewrite forEach_reset_source; run_calls;
    rewrite remove_all_strategies, keep_the_store, map_map, <- !app_assoc;
    reflexivity.
Qed.

(** *** [configure] in closed form *)

Lemma strict_eq_false (mode : string) (current : Js.value) :
  current ≠ Some mode → Js.strict_eq mode current = false.
Proof.
  destruct current as [c|]; cbn; [|reflexivity].
  intros H. apply String.eqb_neq. congruence.
Qed.

Lemma strict_eq_true (mode : string) :
  Js.strict_eq mode (Some mode) = true.
Proof. apply String.eqb_refl. Qed.

Lemma configure_run (mode : string) (w : World) :
  Orbit.mode (service w) ≠ Some mode →
  configure mode w = (Returned Promise, reconfigured mode w).
Proof.
  intros Hm. unfold configure, reconfigured, configure_events.
  unfold bind at 1, gets at 1. rewrite (strict_eq_false _ _ Hm).
  unfold mbind, M_bind, bind at 1, console_log at 1, emit at 1, modify at 1.
  unfold bind at 1, gets at 1. unfold bind at 1.
  rewrite clearActiveConfiguration_run.
  unfold torn_down, setup_events, activation_events, is_server, has_backup,
    transformLog_clear.
  open_world w. clear Hm.
  destruct activated0, (mode =? "pessimistic-server"),
    (mode =? "optimistic-server"), (mode =? "offline-only");
    run_calls; cbn [source_name];
    change ("backup" =? "store") with false;
    change ("store" =? "store") with true; run_calls;
    cbn [orb app added_sources added_strategies flat_map];
    rewrite <- ?app_assoc, ?app_nil_r; cbn [app]; reflexivity.
Qed.

(** *** Events of a run *)

Lemma skipn_length_app {A} (l l' : list A) : skipn (length l) (l ++ l') = l'.
Proof. induction l as [|x l IH]; [reflexivity | exact IH]. Qed.

Lemma events_unchanged {A} (m : M A) (w : World) (o : Outcome A) :
  m w = (o, w) → events m w = [].
Proof.
  intros H. unfold events, exec. rewrite H. cbn [snd].
  rewrite <- (app_nil_r (trace w)) at 2. apply skipn_length_app.
Qed.

Lemma events_appended {A} (m : M A) (w : World) (evs : list Event) :
  trace (exec m w) = trace w ++ evs → events m w = evs.
Proof. intros H. unfold events. rewrite H. apply skipn_length_app. Qed.

Lemma configure_same (mode : string) (w : World) :
  Orbit.mode (service w) = Some mode →
  configure mode w = (Returned Undefined, w).
Proof.
  intros Hm. unfold configure, bind at 1, gets at 1.
  now rewrite Hm, strict_eq_true.
Qed.

Lemma configure_events_run (mode : string) (w : World) :
  Orbit.mode (service w) ≠ Some mode →
  events (configure mode) w = configure_events mode w.
Proof.
  intros Hm. apply events_appended. unfold exec.
  now rewrite configure_run.
Qed.

(** *** The three phases of a reconfiguration *)

Lemma teardown_all (P : Event → Prop) (c : Coordinator) :
  P CoordinatorDeactivate →
  (∀ args, P (ConsoleLog args)) →
  (∀ n, P (SourceReset n)) →
  (∀ n, P (RemoveStrategy n)) →
  (∀ n, P (TransformLogClear n)) →
  (∀ n, P (RequestQueueClear n)) →
  (∀ n, P (SyncQueueClear n)) →
  (∀ n, P (CacheReset n)) →
  (∀ n, P (RemoveSource n)) →
  Forall P (teardown_events c).
Proof.
  intros. unfold teardown_events. destruct (activated c); [|constructor].
  repeat (apply List.Forall_app; split).
  - repeat constructor; auto.
  - destruct (List.find _ _); repeat constructor; auto.
  - repeat constructor; auto.
  - apply Forall_map, List.Forall_forall. auto.
  - apply Forall_flat_map, List.Forall_forall. intros s _.
    unfold source_teardown. destruct (is_store s); repeat constructor; auto.
Qed.

Lemma setup_all (P : Event → Prop) (mode : string) (indexedDB : bool)
    (bucket : option Bucket) :
  (∀ s, P (AddStrategy s)) → (∀ s, P (AddSource s)) →
  Forall P (setup_events mode indexedDB bucket).
Proof.
  intros. unfold setup_events.
  destruct (is_server mode), (has_backup mode),
    (mode =? "pessimistic-server"); repeat constructor; auto.
Qed.

Lemma activation_all (P : Event → Prop) (mode : string)
    (pulled : list Transform) :
  P CoordinatorActivate →
  (∀ n q, P (SourcePull n q)) → (∀ ts, P (StoreSync ts)) →
  (∀ n, P (TransformLogClear n)) →
  Forall P (activation_events mode pulled).
Proof.
  intros. unfold activation_events.
  destruct (has_backup mode); repeat constructor; auto.
Qed.

Lemma reconfigured_coordinator (mode : string) (w : World) :
  Orbit.mode (service w) ≠ Some mode →
  coordinator (exec (configure mode) w) =
  {| activated := true;
     sources :=
       sources (coordinator (exec clearActiveConfiguration w))
       ++ added_sources
            (setup_events mode (supportsIndexedDB w) (bucket (service w)));
     strategies :=
       strategies (coordinator (exec clearActiveConfiguration w))
       ++ added_strategies
            (setup_events mode (supportsIndexedDB w) (bucket (service w))) |}.
Proof.
  intros Hm. unfold exec.
  now rewrite configure_run, clearActiveConfiguration_run.
Qed.

(** *** What a reconfiguration adds *)

Lemma is_server_iff (mode : string) :
  is_server mode = true ↔
  mode = "pessimistic-server" ∨ mode = "optimistic-server".
Proof.
  unfold is_server. rewrite orb_true_iff, !String.eqb_eq. reflexivity.
Qed.

Lemma has_backup_iff (mode : string) :
  has_backup mode = true ↔ mode = "offline-only" ∨ mode = "optimistic-server".
Proof.
  unfold has_backup. rewrite orb_true_iff, !String.eqb_eq. reflexivity.
Qed.

Lemma added_sources_app (l l' : list Event) :
  added_sources (l ++ l') = added_sources l ++ added_sources l'.
Proof. apply flat_map_app. Qed.

Lemma added_sources_none (l : list Event) :
  Forall (λ e, ∀ s, e ≠ AddSource s) l → added_sources l = [].
Proof.
  unfold added_sources. induction 1 as [|e l He _ IH]; [reflexivity|].
  cbn [flat_map]. rewrite IH. destruct e; try reflexivity. now destruct (He s).
Qed.

Lemma added_sources_setup (mode : string) (indexedDB : bool)
    (bucket : option Bucket) :
  added_sources (setup_events mode indexedDB bucket) =
  (if is_server mode then [remote_source bucket] else [])
  ++ (if has_backup mode then [backup_source indexedDB bucket] else []).
Proof.
  unfold setup_events.
  now destruct (is_server mode), (has_backup mode),
    (mode =? "pessimistic-server").
Qed.

Lemma added_sources_configure (mode : string) (w : World) :
  Orbit.mode (service w) ≠ Some mode →
  added_sources (events (configure mode) w) =
  (if is_server mode then [remote_source (bucket (service w))] else [])
  ++ (if has_backup mode
      then [backup_source (supportsIndexedDB w) (bucket (service w))]
      else []).
Proof.
  intros Hm. rewrite configure_events_run by exact Hm.
  unfold configure_events. rewrite !added_sources_app, added_sources_setup.
  rewrite (added_sources_none (teardown_events _))
    by (apply teardown_all; discriminate).
  rewrite (added_sources_none (activation_events _ _))
    by (apply activation_all; discriminate).
  cbn. now rewrite app_nil_r.
Qed.

Lemma events_same_mode (mode : string) (w : World) :
  Orbit.mode (service w) = Some mode → events (configure mode) w = [].
Proof.
  intros Hm. apply events_unchanged with (o := Returned Undefined).
  now apply configure_same.
Qed.

(** *** [initialize] *)

Lemma initialize_run (w : World) :
  initialize w =
  configure (Js.or_else (localStorage w !! "peeps-mode") "offline-only") w.
Proof. reflexivity. Qed.

Lemma or_else_nonempty (s d : string) : s ≠ "" → Js.or_else (Some s) d = s.
Proof.
  intros Hs. unfold Js.or_else.
  now destruct (JsFacts.truthy_nonempty (Some s) s (conj eq_refl Hs)) as [-> ->].
Qed.

Lemma or_else_blank (v : Js.value) (d : string) :
  Js.blank v → Js.or_else v d = d.
Proof. intros H. unfold Js.or_else. now rewrite JsFacts.truthy_blank. Qed.

(** *** Which callback a failure reaches *)

Ltac expand_installed mode :=
  let l := eval vm_compute in (installed mode) in
  change (installed mode) with l.

Lemma added_strategies_setup (mode : string) (indexedDB : bool)
    (bucket : option Bucket) :
  added_strategies (setup_events mode indexedDB bucket) = installed mode.
Proof.
  unfold installed, setup_events.
  now destruct (is_server mode), (has_backup mode),
    (mode =? "pessimistic-server").
Qed.

Lemma configure_in_mode (mode : string) (w : World) :
  Orbit.mode (service w) ≠ Some mode →
  activated (coordinator w) = true ∨ strategies (coordinator w) = [] →
  in_mode mode (exec (configure mode) w).
Proof.
  intros Hm Hclean. unfold in_mode.
  rewrite reconfigured_coordinator by exact Hm. cbn [activated strategies].
  split; [reflexivity|]. rewrite added_strategies_setup.
  unfold exec. rewrite clearActiveConfiguration_run. unfold torn_down.
  destruct (activated (coordinator w)) eqn:Ha; [reflexivity|].
  cbn [snd]. destruct Hclean as [? | ->]; [discriminate | reflexivity].
Qed.

Lemma push_fails_optimistic (t : Transform) (e : JsError) (w : World) :
  in_mode "optimistic-server" w →
  remote_push_fails t e w = discard (pushFail_action t e) w.
Proof.
  intros [Ha Hs]. unfold remote_push_fails, listeners, bind at 1, gets.
  cbv beta iota. rewrite Ha, Hs.
  expand_installed "optimistic-server".
  cbn [forEach on_fail_event on_rejection].
  change ("remote" =? "remote") with true.
  change ("pushFail" =? "pushFail") with true.
  cbn [andb run_action]. unfold discard, mbind, M_bind, bind, mret, M_ret.
  destruct (pushFail_action t e w) as [[c|e'] w']; reflexivity.
Qed.

Lemma push_fails_pessimistic (t : Transform) (e : JsError) (w : World) :
  in_mode "pessimistic-server" w →
  remote_push_fails t e w = discard (catch_push "store" "remote" e) w.
Proof.
  intros [Ha Hs]. unfold remote_push_fails, listeners, bind at 1, gets.
  cbv beta iota. rewrite Ha, Hs.
  expand_installed "pessimistic-server".
  cbn [forEach on_fail_event on_rejection].
  change ("remote" =? "remote") with true.
  change ("push" =? "push") with true.
  change ("pull" =? "push") with false.
  cbn [andb run_catch]. reflexivity.
Qed.

Lemma pull_fails_server (mode : string) (e : JsError) (w : World) :
  mode = "pessimistic-server" ∨ mode = "optimistic-server" →
  in_mode mode w →
  remote_pull_fails e w = discard (catch_pull "store" "remote" e) w.
Proof.
  intros Hmode [Ha Hs]. unfold remote_pull_fails, listeners, bind at 1, gets.
  cbv beta iota. rewrite Ha, Hs.
  destruct Hmode as [-> | ->].
  - expand_installed "pessimistic-server".
    cbn [forEach on_rejection].
    change ("remote" =? "remote") with true.
    change ("pull" =? "pull") with true.
    change ("push" =? "pull") with false.
    cbn [andb run_catch]. reflexivity.
  - expand_installed "optimistic-server".
    cbn [forEach on_rejection].
    change ("remote" =? "remote") with true.
    change ("pull" =? "pull") with true.
    cbn [andb run_catch]. reflexivity.
Qed.

Lemma no_handler_without_remote (mode : string) (t : Transform)
    (e : JsError) (w : World) :
  is_server mode = false →
  in_mode mode w →
  remote_push_fails t e w = (Returned (), w) ∧
  remote_pull_fails e w = (Returned (), w).
Proof.
  intros Hmode [Ha Hs].
  unfold remote_push_fails, remote_pull_fails, listeners, bind, gets.
  cbv beta iota. rewrite Ha, Hs. unfold installed, setup_events.
  rewrite Hmode.
  destruct (has_backup mode); split; reflexivity.
Qed.

(** *** The store's transform log *)

Lemma index_of_split (x : string) (l : list string) (n : nat) :
  index_of x l = Some n →
  ∃ earlier later,
    l = earlier ++ x :: later ∧ ¬ In x earlier ∧ length earlier = n.
Proof.
  revert n. induction l as [|y l IH]; intros n; cbn; [discriminate|].
  destruct (String.eqb_spec x y) as [-> | Hne].
  - intros [= <-]. exists [], l. repeat split. intros [].
  - destruct (index_of x l) as [k|]; [|discriminate].
    intros [= <-]. destruct (IH k eq_refl) as (earlier & later & -> & Hni & Hl).
    exists (y :: earlier), later. repeat split.
    + intros [-> | Hin]; [now apply Hne | now apply Hni].
    + cbn. now rewrite Hl.
Qed.

Lemma contains_index_of (x : string) (l : list string) :
  existsb (String.eqb x) l = true → ∃ n, index_of x l = Some n.
Proof.
  induction l as [|y l IH]; cbn; [discriminate|].
  destruct (x =? y); [now exists 0%nat|]. cbn.
  intros [n ->]%IH. now exists (S n).
Qed.

Lemma rollback_to_before (x : string) (l : list string) :
  existsb (String.eqb x) l = true →
  ∃ earlier later,
    l = earlier ++ x :: later ∧ ¬ In x earlier ∧
    log_rollback x (-1) l = earlier.
Proof.
  intros [n Hn]%contains_index_of.
  destruct (index_of_split _ _ _ Hn) as (earlier & later & Hl & Hni & Hlen).
  exists earlier, later. split; [exact Hl|]. split; [exact Hni|].
  unfold log_rollback. rewrite Hn.
  assert (Hle : (n <= length l)%nat).
  { rewrite Hl, length_app, Hlen. lia. }
  replace (Z.of_nat n + 1 + -1)%Z with (Z.of_nat n) by lia.
  destruct (Z.leb_spec 0 (Z.of_nat n)); [|lia].
  destruct (Z.leb_spec (Z.of_nat n) (Z.of_nat (length l))); [|lia].
  cbn [andb]. rewrite Nat2Z.id, Hl, <- Hlen. apply take_app_length.
Qed.

(** *** The [pushFail] action *)

Lemma pushFail_action_network (t : Transform) (e : JsError) (w : World) :
  instanceof_NetworkError e = true →
  pushFail_action t e w =
  (Returned Undefined,
   with_timers (λ l, l ++ [(RetryRemoteRequestQueue, 5000%Z)])
     (with_trace
        (λ tr, tr ++ [ ConsoleLog [LogStr "NetworkError - will try again soon"];
                       SetTimeout RetryRemoteRequestQueue 5000 ])
        w)).
Proof.
  intros He. unfold pushFail_action. rewrite He. open_world w. run_calls.
  now rewrite <- app_assoc.
Qed.

Lemma pushFail_action_other (t : Transform) (e : JsError) (w : World) :
  instanceof_NetworkError e = false →
  pushFail_action t e w =
  (Returned Promise,
   with_storeLog
     (λ l, if existsb (String.eqb (id t)) (storeLog w)
           then log_rollback (id t) (-1) l else l)
     (with_trace
        (λ tr, tr ++ [ Alert (alert_text t) ]
                  ++ (if existsb (String.eqb (id t)) (storeLog w)
                      then [ ConsoleLog [LogStr "Rolling back - transform:";
                                         LogStr (id t)];
                             StoreRollback (id t) (-1) ]
                      else [])
                  ++ [ RequestQueueSkip "remote" ])
        w)).
Proof.
  intros He. unfold pushFail_action, alert_text, transform_label. rewrite He.
  destruct (Js.truthy _); open_world w; run_calls;
    destruct (existsb (String.eqb (id t)) _); run_calls;
    rewrite <- ?app_assoc; reflexivity.
Qed.

Lemma alert_text_labelled (t : Transform) (l : string) :
  Js.nonempty (transform_label t) l →
  alert_text t = "Unable to complete " +:+ dquote +:+ l +:+ dquote.
Proof.
  intros [Ht Hs]%JsFacts.truthy_nonempty. unfold alert_text.
  now rewrite Ht, Hs.
Qed.

Lemma alert_text_generic (t : Transform) :
  Js.blank (transform_label t) →
  alert_text t = "Unable to complete operation".
Proof.
  intros Ht%JsFacts.truthy_blank. unfold alert_text. now rewrite Ht.
Qed.

(** The action leaves the coordinator as it is, so the mode it runs in
    persists. *)
Lemma pushFail_action_keeps_mode (mode : string) (t : Transform)
    (e : JsError) (w : World) :
  in_mode mode w → in_mode mode (exec (pushFail_action t e) w).
Proof.
  intros Hmode. unfold exec.
  destruct (instanceof_NetworkError e) eqn:He.
  - now rewrite pushFail_action_network.
  - now rewrite pushFail_action_other.
Qed.

(** *** The [catch] handlers *)

Lemma catch_pull_run (source target : string) (e : JsError) (w : World) :
  discard (catch_pull source target e) w =
  (Thrown e,
   with_trace
     (λ tr, tr ++ [ ConsoleLog [LogStr "error performing remote.pull";
                                LogErr e];
                    RequestQueueSkip source; RequestQueueSkip target ])
     w).
Proof.
  unfold discard, catch_pull. open_world w. run_calls.
  now rewrite <- !app_assoc.
Qed.

Lemma catch_push_run (source target : string) (e : JsError) (w : World) :
  discard (catch_push source target e) w =
  (Thrown e,
   with_trace
     (λ tr, tr ++ [ ConsoleLog [LogStr "error performing remote.push";
                                LogErr e];
                    RequestQueueSkip source; RequestQueueSkip target ])
     w).
Proof.
  unfold discard, catch_push. open_world w. run_calls.
  now rewrite <- !app_assoc.
Qed.

End ConfigurationFacts.

(** ** The claims about the configuration service *)

Module ConfigurationSpec.
Import Orbit OrbitConfiguration Scenarios ConfigurationFacts.

(** C1, as stated, fails: in pessimistic-server mode nothing listens to the
    remote source's [pushFail] event.  A push that fails with a client error
    only reaches the [catch] of the blocking push strategy: no alert is shown
    and the store is not rolled back, although the transform is in its log. *)
Lemma push_failure_alert_counterexample :
  let w := busy_session "pessimistic-server" in
  let run := remote_push_fails add_contact unprocessable in
  in_mode "pessimistic-server" w ∧
  instanceof_NetworkError unprocessable = false ∧
  existsb (String.eqb (id add_contact)) (storeLog w) = true ∧
  outcome run w = Thrown unprocessable ∧
  events run w =
    [ ConsoleLog [LogStr "error performing remote.push";
                  LogErr unprocessable];
      RequestQueueSkip "store"; RequestQueueSkip "remote" ] ∧
  storeLog (exec run w) = storeLog w.
Proof.
  vm_compute. repeat split.
Qed.

(** C1, amended.  In optimistic-server mode, whenever a push to the remote
    source fails with an error that is not a NetworkError, an alert is shown,
    worded with the failing transform's label when it has a non-empty one and
    generic otherwise; when the failing transform's id is in the store's
    transform log, the store is rolled back to the position immediately before
    that transform; and the remote source's request-queue entry is skipped.
    No retry is scheduled. *)
Theorem push_failure_alert_rollback_skip (w : World) (t : Transform)
    (e : JsError) :
  in_mode "optimistic-server" w →
  instanceof_NetworkError e = false →
  let run := remote_push_fails t e in
  let logged := existsb (String.eqb (id t)) (storeLog w) in
  outcome run w = Returned () ∧
  events run w =
    [ Alert (alert_text t) ]
    ++ (if logged then
          [ ConsoleLog [LogStr "Rolling back - transform:"; LogStr (id t)];
            StoreRollback (id t) (-1) ]
        else [])
    ++ [ RequestQueueSkip "remote" ] ∧
  (∀ l, Js.nonempty (transform_label t) l →
        alert_text t = "Unable to complete " +:+ dquote +:+ l +:+ dquote) ∧
  (Js.blank (transform_label t) →
   alert_text t = "Unable to complete operation") ∧
  (logged = true →
   ∃ earlier later,
     storeLog w = earlier ++ id t :: later ∧ ¬ In (id t) earlier ∧
     storeLog (exec run w) = earlier) ∧
  (logged = false → storeLog (exec run w) = storeLog w) ∧
  timers (exec run w) = timers w.
Proof.
  intros Hmode He run logged.
  assert (Hrun : run w = _) by
    (subst run; rewrite push_fails_optimistic by exact Hmode;
     unfold discard, mbind, M_bind, bind;
     rewrite pushFail_action_other by exact He; reflexivity).
  cbv beta iota in Hrun. unfold mret, M_ret in Hrun. fold logged in Hrun.
  split; [unfold outcome; now rewrite Hrun|].
  split; [apply events_appended; unfold exec; now rewrite Hrun|].
  split; [apply alert_text_labelled|]. split; [apply alert_text_generic|].
  unfold exec. rewrite Hrun. cbn [snd]. unfold with_storeLog, with_trace.
  cbn [storeLog timers]. split; [|split; [|reflexivity]].
  - intros Hl. rewrite Hl.
    destruct (rollback_to_before (id t) (storeLog w) Hl)
      as (earlier & later & H1 & H2 & H3).
    now exists earlier, later.
  - now intros ->.
Qed.

Lemma push_failure_alert_rollback_skip_witness :
  let w := busy_session "optimistic-server" in
  let run := remote_push_fails add_contact unprocessable in
  events run w =
    [ Alert (alert_text add_contact);
      ConsoleLog [LogStr "Rolling back - transform:"; LogStr "t2"];
      StoreRollback "t2" (-1);
      RequestQueueSkip "remote" ] ∧
  storeLog w = ["t1"; "t2"; "t3"] ∧
  storeLog (exec run w) = ["t1"].
Proof.
  intros w run.
  assert (Hmode : in_mode "optimistic-server" w) by (split; reflexivity).
  assert (He : instanceof_NetworkError unprocessable = false) by reflexivity.
  split;
    [exact (proj1 (proj2
              (push_failure_alert_rollback_skip w add_contact unprocessable
                 Hmode He)))|].
  split; vm_compute; reflexivity.
Defined.

(** C2, as stated, fails: in pessimistic-server mode a push that fails with a
    NetworkError is not retried.  The [catch] of the blocking push strategy
    skips the entries of both request queues and rethrows; no timer is set. *)
Lemma push_failure_retry_counterexample :
  let w := busy_session "pessimistic-server" in
  let run := remote_push_fails add_contact offline in
  in_mode "pessimistic-server" w ∧
  instanceof_NetworkError offline = true ∧
  outcome run w = Thrown offline ∧
  events run w =
    [ ConsoleLog [LogStr "error performing remote.push"; LogErr offline];
      RequestQueueSkip "store"; RequestQueueSkip "remote" ] ∧
  timers (exec run w) = [].
Proof.
  vm_compute. repeat split.
Qed.

(** C2, amended.  In optimistic-server mode, whenever a push to the remote
    source fails with a NetworkError, a timer of 5000 ms is set whose callback
    retries the remote source's request queue, and nothing else happens: no
    alert is shown and the store is not rolled back. *)
Theorem push_failure_network_retry (w : World) (t : Transform) (e : JsError) :
  in_mode "optimistic-server" w →
  instanceof_NetworkError e = true →
  let run := remote_push_fails t e in
  outcome run w = Returned () ∧
  events run w =
    [ ConsoleLog [LogStr "NetworkError - will try again soon"];
      SetTimeout RetryRemoteRequestQueue 5000 ] ∧
  timers (exec run w) = timers w ++ [(RetryRemoteRequestQueue, 5000%Z)] ∧
  (∀ w', events (run_timer RetryRemoteRequestQueue) w'
         = [RequestQueueRetry "remote"]) ∧
  storeLog (exec run w) = storeLog w ∧
  Forall (λ ev, (∀ message, ev ≠ Alert message) ∧
                (∀ i r, ev ≠ StoreRollback i r))
    (events run w).
Proof.
  intros Hmode He run.
  assert (Hrun : run w = _) by
    (subst run; rewrite push_fails_optimistic by exact Hmode;
     unfold discard, mbind, M_bind, bind;
     rewrite pushFail_action_network by exact He; reflexivity).
  cbv beta iota in Hrun. unfold mret, M_ret in Hrun.
  assert (Hev : events run w =
    [ ConsoleLog [LogStr "NetworkError - will try again soon"];
      SetTimeout RetryRemoteRequestQueue 5000 ])
    by (apply events_appended; unfold exec; now rewrite Hrun).
  split; [unfold outcome; now rewrite Hrun|].
  split; [exact Hev|].
  split; [unfold exec; now rewrite Hrun|].
  split.
  { intros w'. apply events_appended. reflexivity. }
  split; [unfold exec; now rewrite Hrun|].
  rewrite Hev. repeat constructor; discriminate.
Qed.

Lemma push_failure_network_retry_witness :
  let w := busy_session "optimistic-server" in
  let run := remote_push_fails add_contact offline in
  events run w =
    [ ConsoleLog [LogStr "NetworkError - will try again soon"];
      SetTimeout RetryRemoteRequestQueue 5000 ] ∧
  timers (exec run w) = [(RetryRemoteRequestQueue, 5000%Z)].
Proof.
  intros w run.
  assert (Hmode : in_mode "optimistic-server" w) by (split; reflexivity).
  assert (He : instanceof_NetworkError offline = true) by reflexivity.
  split.
  - exact (proj1 (proj2
             (push_failure_network_retry w add_contact offline Hmode He))).
  - exact (proj1 (proj2 (proj2
             (push_failure_network_retry w add_contact offline Hmode He)))).
Defined.

(** C3, as stated, fails: in optimistic-server mode a pull that fails takes
    neither branch.  With a NetworkError no retry is scheduled, with a client
    error no alert is shown; either way the [catch] of the pull strategy logs
    the error, skips the entries of both request queues and rethrows. *)
Lemma two_policies_counterexample :
  let w := busy_session "optimistic-server" in
  in_mode "optimistic-server" w ∧
  outcome (remote_pull_fails offline) w = Thrown offline ∧
  events (remote_pull_fails offline) w =
    [ ConsoleLog [LogStr "error performing remote.pull"; LogErr offline];
      RequestQueueSkip "store"; RequestQueueSkip "remote" ] ∧
  timers (exec (remote_pull_fails offline) w) = [] ∧
  outcome (remote_pull_fails unprocessable) w = Thrown unprocessable ∧
  events (remote_pull_fails unprocessable) w =
    [ ConsoleLog [LogStr "error performing remote.pull";
                  LogErr unprocessable];
      RequestQueueSkip "store"; RequestQueueSkip "remote" ].
Proof.
  vm_compute. repeat split.
Qed.

(** C3, amended.  The codebase selects three failure policies, each through a
    callback of a request strategy, and which one applies depends on the
    request and on the mode.  A failed pull in either server mode, and a
    failed push in pessimistic-server mode, are logged, the entries of the
    store's and the remote's request queues are skipped and the error is
    rethrown, whatever its class.  Only a failed push in optimistic-server
    mode runs the [pushFail] action with its two branches (retry after 5 s on
    a NetworkError, alert and rollback otherwise).  The other modes install no
    failure callback.  Every mode-changing [configure] on a coordinator that
    is active or holds no strategy leaves exactly the strategies of its
    mode. *)
Theorem failure_policies (mode : string) (w : World) (t : Transform)
    (e : JsError) :
  in_mode mode w →
  let skipped_and_rethrown (what : string) (run : M ()) :=
    outcome run w = Thrown e ∧
    events run w =
      [ ConsoleLog [LogStr what; LogErr e];
        RequestQueueSkip "store"; RequestQueueSkip "remote" ] ∧
    storeLog (exec run w) = storeLog w ∧
    timers (exec run w) = timers w in
  (mode = "pessimistic-server" ∨ mode = "optimistic-server" →
   skipped_and_rethrown "error performing remote.pull"
     (remote_pull_fails e)) ∧
  (mode = "pessimistic-server" →
   skipped_and_rethrown "error performing remote.push"
     (remote_push_fails t e)) ∧
  (mode = "optimistic-server" →
   remote_push_fails t e w = discard (pushFail_action t e) w ∧
   outcome (remote_push_fails t e) w = Returned ()) ∧
  (mode ≠ "pessimistic-server" → mode ≠ "optimistic-server" →
   remote_push_fails t e w = (Returned (), w) ∧
   remote_pull_fails e w = (Returned (), w)) ∧
  (∀ w0,
     Orbit.mode (service w0) ≠ Some mode →
     activated (coordinator w0) = true ∨ strategies (coordinator w0) = [] →
     in_mode mode (exec (configure mode) w0)).
Proof.
  intros Hmode skipped_and_rethrown.
  split; [|split; [|split; [|split]]].
  - intros Hserver. subst skipped_and_rethrown. cbv beta.
    pose proof (pull_fails_server mode e w Hserver Hmode) as Hrun.
    rewrite catch_pull_run in Hrun.
    split; [unfold outcome; now rewrite Hrun|].
    split; [apply events_appended; unfold exec; now rewrite Hrun|].
    unfold exec. rewrite Hrun. split; reflexivity.
  - intros ->. subst skipped_and_rethrown. cbv beta.
    pose proof (push_fails_pessimistic t e w Hmode) as Hrun.
    rewrite catch_push_run in Hrun.
    split; [unfold outcome; now rewrite Hrun|].
    split; [apply events_appended; unfold exec; now rewrite Hrun|].
    unfold exec. rewrite Hrun. split; reflexivity.
  - intros ->. split; [now apply push_fails_optimistic|].
    unfold outcome. rewrite push_fails_optimistic by exact Hmode.
    unfold discard, mbind, M_bind, bind.
    destruct (instanceof_NetworkError e) eqn:He.
    + now rewrite pushFail_action_network.
    + now rewrite pushFail_action_other.
  - intros H1 H2. apply (no_handler_without_remote mode); [|exact Hmode].
    destruct (is_server mode) eqn:Hs; [|reflexivity].
    apply is_server_iff in Hs as [? | ?]; contradiction.
  - intros w0. apply configure_in_mode.
Qed.

Lemma failure_policies_witness :
  let w := busy_session "pessimistic-server" in
  events (remote_pull_fails offline) w =
    [ ConsoleLog [LogStr "error performing remote.pull"; LogErr offline];
      RequestQueueSkip "store"; RequestQueueSkip "remote" ] ∧
  events (remote_push_fails add_contact offline) w =
    [ ConsoleLog [LogStr "error performing remote.push"; LogErr offline];
      RequestQueueSkip "store"; RequestQueueSkip "remote" ].
Proof.
  intros w.
  assert (Hmode : in_mode "pessimistic-server" w) by (split; reflexivity).
  destruct (failure_policies "pessimistic-server" w add_contact offline Hmode)
    as (Hpull & Hpush & _).
  split.
  - exact (proj1 (proj2 (Hpull (or_introl eq_refl)))).
  - exact (proj1 (proj2 (Hpush eq_refl))).
Defined.

(** C4, as stated, fails: a call [configure "optimistic-server"] made while
    that mode is already configured makes no call at all, so it adds no remote
    source although the mode is optimistic-server. *)
Lemma remote_added_on_every_call_counterexample :
  Orbit.mode (service (session "optimistic-server"))
    = Some "optimistic-server" ∧
  events (configure "optimistic-server") (session "optimistic-server") = [] ∧
  ¬ ((∃ s, In s (added_sources
                   (events (configure "optimistic-server")
                      (session "optimistic-server")))
           ∧ source_name s = "remote" ∧ source_class s = JSONAPISource)
     ↔ "optimistic-server" = "pessimistic-server"
       ∨ "optimistic-server" = "optimistic-server").
Proof.
  assert (Hev : events (configure "optimistic-server")
                  (session "optimistic-server") = [])
    by now apply events_same_mode.
  split; [reflexivity|]. split; [exact Hev|].
  intros [_ H]. destruct (H (or_intror eq_refl)) as (s & Hs & _).
  rewrite Hev in Hs. exact Hs.
Qed.

(** C4, amended.  The service advertises exactly four modes.  For every call
    [configure mode] with a mode other than the current one, a remote JSON:API
    source is added exactly when the mode is pessimistic-server or
    optimistic-server, and a backup source exactly when it is offline-only or
    optimistic-server; nothing else is added, so that, the teardown having
    left the store alone, the names of the registered sources spell the
    advertised description of the mode. *)
Theorem sources_added_per_mode (mode : string) (w : World) :
  Orbit.mode (service w) ≠ Some mode →
  let added := added_sources (events (configure mode) w) in
  map fst availableModes =
    ["memory-only"; "offline-only"; "pessimistic-server";
     "optimistic-server"] ∧
  ((∃ s, In s added ∧ source_name s = "remote"
         ∧ source_class s = JSONAPISource)
   ↔ mode = "pessimistic-server" ∨ mode = "optimistic-server") ∧
  ((∃ s, In s added ∧ source_name s = "backup")
   ↔ mode = "offline-only" ∨ mode = "optimistic-server") ∧
  added =
    (if is_server mode then [remote_source (bucket (service w))] else [])
    ++ (if has_backup mode
        then [backup_source (supportsIndexedDB w) (bucket (service w))]
        else []) ∧
  sources (coordinator (exec (configure mode) w)) =
    sources (coordinator (exec clearActiveConfiguration w)) ++ added ∧
  (∀ description,
     In (mode, description) availableModes →
     sources (coordinator (exec clearActiveConfiguration w)) = [store] →
     String.concat " + "
       (map source_name (sources (coordinator (exec (configure mode) w))))
     = description).
Proof.
  intros Hm added.
  assert (Hadded : added =
    (if is_server mode then [remote_source (bucket (service w))] else [])
    ++ (if has_backup mode
        then [backup_source (supportsIndexedDB w) (bucket (service w))]
        else [])) by now apply added_sources_configure.
  assert (Hsources : sources (coordinator (exec (configure mode) w)) =
            sources (coordinator (exec clearActiveConfiguration w)) ++ added).
  { rewrite reconfigured_coordinator by exact Hm. cbn [sources].
    now rewrite Hadded, added_sources_setup. }
  split; [reflexivity|]. split; [|split; [|split; [|split]]].
  - rewrite <- is_server_iff, Hadded. split.
    + intros (s & Hs & Hname & _).
      destruct (is_server mode); [reflexivity|].
      destruct (has_backup mode); cbn in Hs; [|contradiction].
      destruct Hs as [<- | []]. discriminate.
    + intros ->. exists (remote_source (bucket (service w))).
      split; [now left | now split].
  - rewrite <- has_backup_iff, Hadded. split.
    + intros (s & Hs & Hname).
      destruct (has_backup mode); [reflexivity|].
      destruct (is_server mode); cbn in Hs; [|contradiction].
      destruct Hs as [<- | []]. discriminate.
    + intros ->.
      exists (backup_source (supportsIndexedDB w) (bucket (service w))).
      split; [|reflexivity]. apply in_app_iff. right. now left.
  - exact Hadded.
  - exact Hsources.
  - intros description Hin Hstore. rewrite Hsources, Hstore, Hadded.
    cbn in Hin.
    destruct Hin as [[= <- <-] | [[= <- <-] | [[= <- <-] | [[= <- <-] | []]]]];
      reflexivity.
Qed.

Lemma sources_added_per_mode_witness :
  Orbit.mode (service (session "offline-only")) ≠ Some "optimistic-server" ∧
  added_sources
    (events (configure "optimistic-server") (session "offline-only")) =
  [ remote_source
      (Some {| bucket_class := IndexedDBBucket;
               bucket_namespace := "peeps-settings" |});
    backup_source true
      (Some {| bucket_class := IndexedDBBucket;
               bucket_namespace := "peeps-settings" |}) ].
Proof.
  assert (H : Orbit.mode (service (session "offline-only"))
              ≠ Some "optimistic-server") by discriminate.
  split; [exact H|].
  exact (proj1 (proj2 (proj2 (proj2
           (sources_added_per_mode "optimistic-server" _ H))))).
Defined.

(** C5.  A call [configure mode] with a mode other than the current one
    makes its calls in three phases.  Teardown: if the coordinator is
    activated it is first deactivated, the backup source (if registered) is
    reset, every strategy is removed, and every source has its transform log
    and its two queues cleared, after which the store has its cache reset and
    stays while every other source is removed; a coordinator that is not
    activated is left alone.  Setup: the strategies and sources of the new
    mode are added, and nothing is added before the teardown is over.
    Activation: the coordinator is activated only after the whole setup, and
    nothing is added afterwards. *)
Theorem configure_teardown_setup_activation (mode : string) (w : World) :
  Orbit.mode (service w) ≠ Some mode →
  let c := coordinator w in
  let teardown := teardown_events c in
  let setup := setup_events mode (supportsIndexedDB w) (bucket (service w)) in
  let activation := activation_events mode (backupPull w) in
  events (configure mode) w =
    ConsoleLog [LogStr "[orbit-configuration]"; LogStr "mode"; LogStr mode]
    :: teardown
    ++ LocalStorageSetItem "peeps-mode" mode :: setup ++ activation ∧
  events clearActiveConfiguration w = teardown ∧
  (activated c = true →
     teardown =
       [ CoordinatorDeactivate;
         ConsoleLog [LogStr "[orbit-configuration]";
                     LogStr "resetting browser storage"] ]
       ++ match List.find (λ s, source_name s =? "backup") (sources c) with
          | Some b => [SourceReset (source_name b)]
          | None => []
          end
       ++ [ ConsoleLog [LogStr "[orbit-configuration]";
                        LogStr "resetting sources and strategies"] ]
       ++ map (λ s, RemoveStrategy (strategy_name s)) (strategies c)
       ++ flat_map
            (λ s, [ TransformLogClear (source_name s);
                    RequestQueueClear (source_name s);
                    SyncQueueClear (source_name s);
                    if source_name s =? "store"
                    then CacheReset (source_name s)
                    else RemoveSource (source_name s) ])
            (sources c) ∧
     strategies (coordinator (exec clearActiveConfiguration w)) = [] ∧
     sources (coordinator (exec clearActiveConfiguration w)) =
       List.filter (λ s, source_name s =? "store") (sources c)) ∧
  (activated c = false →
     teardown = [] ∧ exec clearActiveConfiguration w = w) ∧
  Forall (λ e, is_addition e = false) teardown ∧
  Forall (λ e, is_addition e = true) setup ∧
  strategies (coordinator (exec (configure mode) w)) =
    strategies (coordinator (exec clearActiveConfiguration w))
    ++ added_strategies setup ∧
  sources (coordinator (exec (configure mode) w)) =
    sources (coordinator (exec clearActiveConfiguration w))
    ++ added_sources setup ∧
  Forall (λ e, e ≠ CoordinatorActivate) (teardown ++ setup) ∧
  (∃ rest, activation = CoordinatorActivate :: rest) ∧
  Forall (λ e, is_addition e = false) activation.
Proof.
  intros Hm c teardown setup activation.
  split; [now rewrite configure_events_run|].
  assert (Hclear : exec clearActiveConfiguration w = torn_down w).
  { unfold exec. now rewrite clearActiveConfiguration_run. }
  split.
  { apply events_appended. rewrite Hclear. unfold torn_down. subst c teardown.
    destruct (activated (coordinator w)) eqn:Ha; [reflexivity|].
    unfold teardown_events. now rewrite Ha, app_nil_r. }
  split.
  { intros Ha. rewrite Hclear. unfold torn_down. subst teardown c.
    unfold teardown_events. rewrite Ha. repeat split. }
  split.
  { intros Ha. rewrite Hclear. unfold torn_down. subst teardown c.
    unfold teardown_events. now rewrite Ha. }
  split; [apply teardown_all; reflexivity|].
  split; [apply setup_all; reflexivity|].
  rewrite reconfigured_coordinator by exact Hm.
  do 2 (split; [reflexivity|]).
  split.
  { apply List.Forall_app. split;
      [apply teardown_all | apply setup_all]; discriminate. }
  split.
  { subst activation. unfold activation_events.
    destruct (has_backup mode); eexists; reflexivity. }
  apply activation_all; reflexivity.
Qed.

Lemma configure_teardown_setup_activation_witness :
  Orbit.mode (service (session "optimistic-server")) ≠ Some "memory-only" ∧
  events (configure "memory-only") (session "optimistic-server") =
    [ ConsoleLog [LogStr "[orbit-configuration]"; LogStr "mode";
                  LogStr "memory-only"];
      CoordinatorDeactivate;
      ConsoleLog [LogStr "[orbit-configuration]";
                  LogStr "resetting browser storage"];
      SourceReset "backup";
      ConsoleLog [LogStr "[orbit-configuration]";
                  LogStr "resetting sources and strategies"];
      RemoveStrategy "event-logging";
      RemoveStrategy "log-truncation";
      RemoveStrategy "remote:transform -> store:sync";
      RemoveStrategy "store:beforeQuery -> remote:pull";
      RemoveStrategy "store:beforeUpdate -> remote:push";
      RemoveStrategy "remote:pushFail";
      RemoveStrategy "store:transform -> backup:sync";
      TransformLogClear "store"; RequestQueueClear "store";
      SyncQueueClear "store"; CacheReset "store";
      TransformLogClear "remote"; RequestQueueClear "remote";
      SyncQueueClear "remote"; RemoveSource "remote";
      TransformLogClear "backup"; RequestQueueClear "backup";
      SyncQueueClear "backup"; RemoveSource "backup";
      LocalStorageSetItem "peeps-mode" "memory-only";
      AddStrategy EventLoggingStrategy;
      AddStrategy LogTruncationStrategy;
      CoordinatorActivate ].
Proof.
  assert (H : Orbit.mode (service (session "optimistic-server"))
              ≠ Some "memory-only") by discriminate.
  split; [exact H|].
  exact (proj1 (configure_teardown_setup_activation "memory-only" _ H)).
Defined.

(** C6, as stated, fails: a call [configure "offline-only"] made while that
    mode is already configured makes no call at all: it neither activates the
    coordinator nor pulls from the backup. *)
Lemma backup_always_pulled_counterexample :
  Orbit.mode (service (session "offline-only")) = Some "offline-only" ∧
  events (configure "offline-only") (session "offline-only") = [] ∧
  ¬ (∃ before,
       events (configure "offline-only") (session "offline-only") =
       before ++ [ CoordinatorActivate;
                   SourcePull "backup" Records;
                   StoreSync (backupPull (session "offline-only"));
                   TransformLogClear "backup";
                   TransformLogClear "store";
                   CoordinatorActivate ]).
Proof.
  assert (Hev : events (configure "offline-only") (session "offline-only")
                = [])
    by now apply events_same_mode.
  split; [reflexivity|]. split; [exact Hev|].
  intros (before & Hb). rewrite Hev in Hb. now destruct before.
Qed.

(** C6, amended.  For a call [configure mode] with a mode other than the
    current one: when the mode is offline-only or optimistic-server, the call
    ends by activating the coordinator for the first time, pulling all records
    from the backup source, syncing the transforms it gets into the store,
    clearing the backup's transform log, then the store's, and activating the
    coordinator a second time; for any other mode it ends with the one and only
    activation, and pulls nothing. *)
Theorem backup_bootstrap (mode : string) (w : World) :
  Orbit.mode (service w) ≠ Some mode →
  let quiet (e : Event) :=
    e ≠ CoordinatorActivate ∧ ∀ source q, e ≠ SourcePull source q in
  (mode = "offline-only" ∨ mode = "optimistic-server" →
   ∃ before,
     events (configure mode) w =
       before ++ [ CoordinatorActivate;
                   SourcePull "backup" Records;
                   StoreSync (backupPull w);
                   TransformLogClear "backup";
                   TransformLogClear "store";
                   CoordinatorActivate ] ∧
     Forall quiet before ∧
     storeLog (exec (configure mode) w) = []) ∧
  (mode ≠ "offline-only" → mode ≠ "optimistic-server" →
   ∃ before,
     events (configure mode) w = before ++ [CoordinatorActivate] ∧
     Forall quiet before).
Proof.
  intros Hm quiet.
  set (before :=
    ConsoleLog [LogStr "[orbit-configuration]"; LogStr "mode"; LogStr mode]
    :: teardown_events (coordinator w)
    ++ LocalStorageSetItem "peeps-mode" mode
    :: setup_events mode (supportsIndexedDB w) (bucket (service w))).
  assert (Hbefore : Forall quiet before).
  { subst before quiet. constructor; [split; discriminate|].
    apply List.Forall_app. split; [apply teardown_all; split; discriminate|].
    constructor; [split; discriminate|].
    apply setup_all; split; discriminate. }
  assert (Hev : events (configure mode) w =
                before ++ activation_events mode (backupPull w)).
  { rewrite configure_events_run by exact Hm. subst before.
    unfold configure_events. cbn [app]. now rewrite <- !app_assoc. }
  split.
  - intros Hmode%has_backup_iff. exists before.
    split; [|split; [exact Hbefore|]].
    + rewrite Hev. unfold activation_events. now rewrite Hmode.
    + unfold exec. rewrite configure_run by exact Hm.
      unfold reconfigured. cbn [storeLog snd]. now rewrite Hmode.
  - intros H1 H2. exists before. split; [|exact Hbefore].
    rewrite Hev. unfold activation_events.
    destruct (has_backup mode) eqn:Hb; [|reflexivity].
    apply has_backup_iff in Hb as [? | ?]; contradiction.
Qed.

Lemma backup_bootstrap_witness :
  Orbit.mode (service (exec init (boot true ∅ [add_contact])))
    ≠ Some "offline-only" ∧
  ∃ before,
    events (configure "offline-only")
      (exec init (boot true ∅ [add_contact])) =
    before ++ [ CoordinatorActivate;
                SourcePull "backup" Records;
                StoreSync [add_contact];
                TransformLogClear "backup";
                TransformLogClear "store";
                CoordinatorActivate ].
Proof.
  assert (H : Orbit.mode (service (exec init (boot true ∅ [add_contact])))
              ≠ Some "offline-only") by discriminate.
  split; [exact H|].
  destruct (proj1 (backup_bootstrap "offline-only" _ H) (or_introl eq_refl))
    as (before & Hev & _).
  exists before. exact Hev.
Defined.

(** C7.  The code departs from the claim in a browser without IndexedDB.
    [init] and [configure] write [supportsIndexedDB ? ... : ...] on the
    function imported from [@orbit/indexeddb] without calling it, so the
    condition holds in every browser: whatever the browser supports, the
    settings bucket is an IndexedDB bucket and every backup source that
    [configure] adds is an IndexedDB source (the only other source it adds is
    the remote JSON:API source), and a backup source is added by every
    mode-changing call to offline-only or optimistic-server.  In a browser
    where [supportsIndexedDB()] returns false, the bucket and the backup
    source of offline-only mode are the IndexedDB ones; the local-storage
    classes are never selected. *)
Theorem storage_backend_ignores_the_browser (w : World) :
  bucket (service (exec init w)) =
    Some {| bucket_class := IndexedDBBucket;
            bucket_namespace := "peeps-settings" |} ∧
  (∀ mode s,
     In s (added_sources (events (configure mode) w)) →
     (source_name s = "remote" ∧ source_class s = JSONAPISource) ∨
     (source_name s = "backup" ∧ source_class s = IndexedDBSource)) ∧
  (∀ mode,
     Orbit.mode (service w) ≠ Some mode →
     mode = "offline-only" ∨ mode = "optimistic-server" →
     ∃ s, In s (added_sources (events (configure mode) w)) ∧
          source_name s = "backup" ∧ source_class s = IndexedDBSource) ∧
  (let old_browser := exec init (boot false ∅ []) in
   supportsIndexedDB_result old_browser = false ∧
   bucket (service old_browser) =
     Some {| bucket_class := IndexedDBBucket;
             bucket_namespace := "peeps-settings" |} ∧
   ∃ s, In s (added_sources
                (events (configure "offline-only") old_browser)) ∧
        source_name s = "backup" ∧ source_class s = IndexedDBSource).
Proof.
  split; [reflexivity|]. split; [|split].
  - intros mode s Hs.
    destruct (Js.strict_eq mode (Orbit.mode (service w))) eqn:Heq.
    + rewrite events_same_mode in Hs; [contradiction|].
      unfold Js.strict_eq in Heq.
      destruct (Orbit.mode (service w)) as [c|]; [|discriminate].
      now apply String.eqb_eq in Heq as ->.
    + rewrite added_sources_configure in Hs.
      * apply in_app_iff in Hs as [Hs | Hs];
          [destruct (is_server mode) | destruct (has_backup mode)];
          cbn in Hs; try contradiction;
          destruct Hs as [<- | []]; [left | right]; now split.
      * intros Hc. rewrite Hc, strict_eq_true in Heq. discriminate.
  - intros mode Hm Hmode%has_backup_iff.
    exists (backup_source true (bucket (service w))).
    split; [|now split].
    rewrite added_sources_configure, Hmode by exact Hm.
    apply in_app_iff. right. now left.
  - cbv zeta. split; [reflexivity|]. split; [reflexivity|].
    set (w0 := exec init (boot false ∅ [])).
    exists (backup_source true (bucket (service w0))).
    split; [|now split].
    rewrite added_sources_configure by discriminate.
    apply in_app_iff. right. now left.
Qed.

(** C8.  A call [configure m] where [m] is the currently configured mode
    returns at once: it returns [undefined], and the world is left exactly as it was,
    so the coordinator is not deactivated, no strategy or source is added or
    removed, [localStorage] is not written and no call at all is made.  Every
    call with another mode returns a promise. *)
Theorem configure_same_mode (m : string) (w : World) :
  Orbit.mode (service w) = Some m →
  configure m w = (Returned Undefined, w) ∧
  events (configure m) w = [] ∧
  coordinator (exec (configure m) w) = coordinator w ∧
  localStorage (exec (configure m) w) = localStorage w ∧
  (∀ m', m' ≠ m → outcome (configure m') w = Returned Promise).
Proof.
  intros Hm. pose proof (configure_same m w Hm) as Hrun.
  split; [exact Hrun|]. split; [now apply events_unchanged with (o := Returned Undefined)|].
  unfold exec. rewrite Hrun. cbn [snd]. do 2 (split; [reflexivity|]).
  intros m' Hne. unfold outcome. rewrite configure_run; [reflexivity|].
  rewrite Hm. congruence.
Qed.

Lemma configure_same_mode_witness :
  configure "offline-only" (session "offline-only") =
    (Returned Undefined, session "offline-only") ∧
  outcome (configure "memory-only") (session "offline-only") =
    Returned Promise.
Proof.
  assert (H : Orbit.mode (service (session "offline-only"))
              = Some "offline-only") by reflexivity.
  split.
  - apply (proj1 (configure_same_mode "offline-only" _ H)).
  - apply (proj2 (proj2 (proj2 (proj2
             (configure_same_mode "offline-only" _ H))))).
    discriminate.
Defined.

(** C9.  A call [configure m] with a mode other than the current one
    succeeds and stores [m] under the [localStorage] key "peeps-mode" before
    any strategy or source of the new configuration is added.  [initialize]
    configures exactly the mode stored under that key, and offline-only when
    no mode is stored there (the key is absent or holds the empty string,
    which is not a mode: the identifiers of the modes are non-empty); hence
    the mode chosen in one session is the one the next session's
    [initialize] restores. *)
Theorem mode_persisted_and_restored (m : string) (w : World) :
  Orbit.mode (service w) ≠ Some m →
  outcome (configure m) w = Returned Promise ∧
  localStorage (exec (configure m) w) !! "peeps-mode" = Some m ∧
  (∃ before,
     events (configure m) w =
       before ++ LocalStorageSetItem "peeps-mode" m
       :: setup_events m (supportsIndexedDB w) (bucket (service w))
       ++ activation_events m (backupPull w) ∧
     Forall (λ e, is_addition e = false) before) ∧
  (∀ w' s,
     localStorage w' !! "peeps-mode" = Some s → s ≠ "" →
     initialize w' = configure s w') ∧
  (∀ w',
     Js.blank (localStorage w' !! "peeps-mode") →
     initialize w' = configure "offline-only" w') ∧
  (m ≠ "" →
   ∀ w',
     localStorage w' = localStorage (exec (configure m) w) →
     Orbit.mode (service w') = None →
     outcome initialize w' = Returned Promise ∧
     Orbit.mode (service (exec initialize w')) = Some m).
Proof.
  intros Hm.
  assert (Hstored :
    localStorage (exec (configure m) w) !! "peeps-mode" = Some m).
  { unfold exec. rewrite configure_run by exact Hm.
    apply lookup_insert_eq. }
  split; [unfold outcome; now rewrite configure_run|].
  split; [exact Hstored|]. split; [|split; [|split]].
  - exists (ConsoleLog [LogStr "[orbit-configuration]"; LogStr "mode";
                        LogStr m] :: teardown_events (coordinator w)).
    split.
    + rewrite configure_events_run by exact Hm.
      unfold configure_events. cbn [app]. now rewrite <- ?app_assoc.
    + constructor; [reflexivity|]. apply teardown_all; reflexivity.
  - intros w' s Hs Hne. rewrite initialize_run, Hs.
    now rewrite or_else_nonempty.
  - intros w' Hblank. rewrite initialize_run.
    now rewrite or_else_blank.
  - intros Hne w' Hls Hnone.
    assert (Hinit : initialize w' = configure m w').
    { rewrite initialize_run, Hls, Hstored. now rewrite or_else_nonempty. }
    unfold outcome, exec. rewrite Hinit, configure_run by congruence.
    split; reflexivity.
Qed.

Lemma mode_persisted_and_restored_witness :
  let first := exec init (boot true ∅ []) in
  let next :=
    exec init
      (boot true
         (localStorage (exec (configure "pessimistic-server") first)) []) in
  Orbit.mode (service first) ≠ Some "pessimistic-server" ∧
  Orbit.mode (service (exec initialize next)) = Some "pessimistic-server".
Proof.
  intros first next.
  assert (H : Orbit.mode (service first) ≠ Some "pessimistic-server")
    by (vm_compute; discriminate).
  split; [exact H|].
  destruct (mode_persisted_and_restored "pessimistic-server" first H)
    as (_ & _ & _ & _ & _ & Hrestored).
  apply (Hrestored ltac:(discriminate) next);
    vm_compute; reflexivity.
Defined.

End ConfigurationSpec.

(** ** Lemmas about sessions *)

Module SessionFacts.
Import Orbit OrbitConfiguration Session ConfigurationFacts.

(** *** Either the guard of [configure] stops the call or it does not *)

Lemma current_mode_dec (m : string) (w : World) :
  Orbit.mode (service w) = Some m ∨ Orbit.mode (service w) ≠ Some m.
Proof.
  destruct (Orbit.mode (service w)) as [c|]; [|right; discriminate].
  destruct (String.eqb_spec c m) as [-> | Hne]; [now left | right; congruence].
Qed.

Lemma exec_configure_same (m : string) (w : World) :
  Orbit.mode (service w) = Some m → exec (configure m) w = w.
Proof. intros H. unfold exec. now rewrite configure_same. Qed.

Lemma exec_configure_other (m : string) (w : World) :
  Orbit.mode (service w) ≠ Some m → exec (configure m) w = reconfigured m w.
Proof. intros H. unfold exec. now rewrite configure_run. Qed.

(** *** Computations that leave the configuration alone *)

Lemma same_configuration_refl (w : World) : same_configuration w w.
Proof. repeat split. Qed.

Lemma same_configuration_trans (w1 w2 w3 : World) :
  same_configuration w1 w2 → same_configuration w2 w3 →
  same_configuration w1 w3.
Proof.
  intros (A1 & B1 & C1 & D1) (A2 & B2 & C2 & D2).
  repeat split; congruence.
Qed.

Lemma keeps_bind {A B} (m : M A) (k : A → M B) :
  keeps m → (∀ a, keeps (k a)) → keeps (bind m k).
Proof.
  intros Hm Hk w. specialize (Hm w). unfold exec, bind in *.
  destruct (m w) as [[a | e] w1]; cbn [snd] in *; [|exact Hm].
  eapply same_configuration_trans; [exact Hm | apply Hk].
Qed.

Lemma keeps_seq {A B} (m : M A) (k : M B) :
  keeps m → keeps k → keeps (m ;; k).
Proof. intros Hm Hk. apply keeps_bind; [exact Hm | intros _; exact Hk]. Qed.

Lemma keeps_ret {A} (a : A) : keeps (mret a : M A).
Proof. intros w. apply same_configuration_refl. Qed.

Lemma keeps_throw {A} (e : JsError) : keeps (throw e : M A).
Proof. intros w. apply same_configuration_refl. Qed.

Lemma keeps_gets {A} (f : World → A) : keeps (gets f).
Proof. intros w. apply same_configuration_refl. Qed.

Lemma keeps_emit (e : Event) : keeps (emit e).
Proof. intros w. repeat split. Qed.

Lemma keeps_discard {A} (m : M A) : keeps m → keeps (discard m).
Proof. intros H. apply keeps_seq; [exact H | apply keeps_ret]. Qed.

Lemma keeps_forEach {A} (xs : list A) (f : A → M ()) :
  (∀ x, keeps (f x)) → keeps (forEach xs f).
Proof.
  intros Hf. induction xs as [|x xs IH]; cbn [forEach].
  - apply keeps_ret.
  - apply keeps_seq; [apply Hf | exact IH].
Qed.

Lemma keeps_with_storeLog (f : list string → list string) :
  keeps (modify (with_storeLog f)).
Proof. intros w. repeat split. Qed.

Lemma keeps_with_timers
    (f : list (TimerCallback * Z) → list (TimerCallback * Z)) :
  keeps (modify (with_timers f)).
Proof. intros w. repeat split. Qed.

Lemma keeps_pushFail_action (t : Transform) (e : JsError) :
  keeps (pushFail_action t e).
Proof.
  unfold pushFail_action. destruct (instanceof_NetworkError e).
  - apply keeps_seq; [apply keeps_emit|].
    apply keeps_seq; [|apply keeps_ret].
    apply keeps_seq; [apply keeps_emit | apply keeps_with_timers].
  - apply keeps_seq; [destruct (Js.truthy _); apply keeps_emit|].
    apply keeps_bind; [apply keeps_gets|]. intros contains.
    apply keeps_seq.
    + destruct contains; [|apply keeps_ret].
      apply keeps_seq; [apply keeps_emit|].
      apply keeps_seq; [apply keeps_emit | apply keeps_with_storeLog].
    + apply keeps_seq; [apply keeps_emit | apply keeps_ret].
Qed.

Lemma keeps_catch (f : CatchCallback) (source target : string)
    (e : JsError) :
  keeps (run_catch f source target e).
Proof.
  destruct f; cbn [run_catch]; unfold catch_pull, catch_push;
    repeat (apply keeps_seq; [apply keeps_emit|]); apply keeps_throw.
Qed.

Lemma keeps_on_fail_event (source event : string) (t : Transform)
    (e : JsError) (s : Strategy) :
  keeps (on_fail_event source event t e s).
Proof.
  destruct s as [| | |src on tgt [m|[]] blocking c]; cbn [on_fail_event];
    try apply keeps_ret.
  destruct (_ && _); [|apply keeps_ret].
  apply keeps_discard, keeps_pushFail_action.
Qed.

Lemma keeps_on_rejection (target method : string) (e : JsError)
    (s : Strategy) :
  keeps (on_rejection target method e s).
Proof.
  destruct s as [| | |src on [tgt|] [m|f] blocking [c|]];
    cbn [on_rejection]; try apply keeps_ret.
  destruct (_ && _); [|apply keeps_ret].
  apply keeps_discard, keeps_catch.
Qed.

Lemma keeps_remote_push_fails (t : Transform) (e : JsError) :
  keeps (remote_push_fails t e).
Proof.
  unfold remote_push_fails. apply keeps_bind; [apply keeps_gets|].
  intros ss. apply keeps_seq; apply keeps_forEach; intros s;
    [apply keeps_on_fail_event | apply keeps_on_rejection].
Qed.

Lemma keeps_remote_pull_fails (e : JsError) : keeps (remote_pull_fails e).
Proof.
  unfold remote_pull_fails. apply keeps_bind; [apply keeps_gets|].
  intros ss. apply keeps_forEach. intros s. apply keeps_on_rejection.
Qed.

Lemma keeps_fire_timer : keeps fire_timer.
Proof.
  unfold fire_timer. apply keeps_bind; [apply keeps_gets|].
  intros [|[[] ms] rest]; [apply keeps_ret|].
  apply keeps_seq; [apply keeps_with_timers | apply keeps_emit].
Qed.

(** *** The invariant of a session *)

Lemma consistent_same_configuration (w w' : World) :
  same_configuration w w' → consistent w → consistent w'.
Proof.
  intros (_ & B & C & D). unfold consistent, supportsIndexedDB.
  now rewrite B, C, D.
Qed.

Lemma only_the_store_stays (mode : string) (indexedDB : bool)
    (bucket : option Bucket) :
  List.filter is_store
    (store :: added_sources (setup_events mode indexedDB bucket)) = [store].
Proof.
  rewrite added_sources_setup.
  now destruct (is_server mode), (has_backup mode).
Qed.

Lemma only_the_store_gone (mode : string) (indexedDB : bool)
    (bucket : option Bucket) :
  List.filter is_store
    (added_sources (setup_events mode indexedDB bucket)) = [].
Proof.
  rewrite added_sources_setup.
  now destruct (is_server mode), (has_backup mode).
Qed.

Lemma torn_down_active (w : World) :
  activated (coordinator w) = true →
  strategies (coordinator (torn_down w)) = [] ∧
  sources (coordinator (torn_down w)) =
    List.filter is_store (sources (coordinator w)).
Proof. intros Ha. unfold torn_down. rewrite Ha. now split. Qed.

Lemma torn_down_stores (w : World) :
  List.filter is_store (sources (coordinator (torn_down w))) =
  List.filter is_store (sources (coordinator w)).
Proof.
  unfold torn_down. destruct (activated (coordinator w)); [|reflexivity].
  cbn [coordinator sources]. rewrite filter_twice.
  apply filter_ext. intros s. now destruct (is_store s).
Qed.

Lemma coordinator_reconfigured (m : string) (w : World) :
  coordinator (reconfigured m w) =
  {| activated := true;
     sources :=
       sources (coordinator (torn_down w))
       ++ added_sources
            (setup_events m (supportsIndexedDB w) (bucket (service w)));
     strategies := strategies (coordinator (torn_down w)) ++ installed m |}.
Proof.
  unfold reconfigured. cbn [coordinator].
  now rewrite added_strategies_setup.
Qed.

(** What [clearActiveConfiguration] leaves of a consistent coordinator. *)
Lemma torn_down_consistent (w : World) :
  consistent w →
  strategies (coordinator (torn_down w)) = [] ∧
  sources (coordinator (torn_down w)) = [store].
Proof.
  unfold consistent, torn_down.
  destruct (Orbit.mode (service w)) as [m|].
  - intros (Ha & _ & Hs & _). rewrite Ha. cbn [coordinator strategies sources].
    split; [reflexivity|]. rewrite Hs. apply only_the_store_stays.
  - intros (Ha & Hst & Hs). now rewrite Ha.
Qed.

Lemma reconfigured_consistent (m : string) (w : World) :
  consistent w → consistent (reconfigured m w).
Proof.
  intros Hc. destruct (torn_down_consistent w Hc) as [Hst Hs].
  unfold consistent, reconfigured.
  cbn [service Orbit.mode coordinator activated strategies sources
       supportsIndexedDB bucket localStorage].
  rewrite Hst, Hs, added_strategies_setup. cbn [app].
  repeat split. apply lookup_insert_eq.
Qed.

Lemma configure_consistent (m : string) (w : World) :
  consistent w → consistent (exec (configure m) w).
Proof.
  intros Hc. destruct (current_mode_dec m w) as [Hm | Hm].
  - now rewrite exec_configure_same.
  - rewrite exec_configure_other by exact Hm.
    now apply reconfigured_consistent.
Qed.

Lemma exec_discard {A} (m : M A) (w : World) : exec (discard m) w = exec m w.
Proof.
  unfold exec, discard, mbind, M_bind, bind.
  now destruct (m w) as [[a | e] w'].
Qed.

Lemma step_consistent (op : Op) (w : World) :
  consistent w → consistent (exec (step op) w).
Proof.
  intros Hc. destruct op as [m | | t | t e | e |]; cbn [step].
  - rewrite exec_discard. now apply configure_consistent.
  - rewrite exec_discard. unfold beforeModel, exec.
    rewrite initialize_run. now apply configure_consistent.
  - apply (consistent_same_configuration w); [|exact Hc].
    apply keeps_with_storeLog.
  - apply (consistent_same_configuration w); [|exact Hc].
    apply keeps_remote_push_fails.
  - apply (consistent_same_configuration w); [|exact Hc].
    apply keeps_remote_pull_fails.
  - apply (consistent_same_configuration w); [|exact Hc].
    apply keeps_fire_timer.
Qed.

Lemma run_consistent (ops : list Op) (w : World) :
  consistent w → consistent (run ops w).
Proof.
  revert w. induction ops as [|op ops IH]; intros w Hc; [exact Hc|].
  apply IH. now apply step_consistent.
Qed.

Lemma booted_consistent (indexedDB : bool) (stored : gmap string string)
    (pulled : list Transform) :
  consistent (exec boot_application (boot indexedDB stored pulled)).
Proof.
  unfold boot_application, beforeModel, exec, mbind, M_bind, bind.
  change (init (boot indexedDB stored pulled))
    with (Returned (), exec init (boot indexedDB stored pulled)).
  cbv beta iota. rewrite initialize_run.
  apply configure_consistent. repeat split.
Qed.

(** *** The store's transform log, continued *)

Lemma not_in_not_contained (x : string) (l : list string) :
  ¬ In x l → existsb (String.eqb x) l = false.
Proof.
  intros Hni. destruct (existsb _ l) eqn:Hex; [|reflexivity].
  apply existsb_exists in Hex as (y & Hy & ->%String.eqb_eq).
  contradiction.
Qed.

(** *** What a session never changes *)

Lemma configure_keeps_environment (m : string) (w : World) :
  indexedDB (exec (configure m) w) = indexedDB w ∧
  bucket (service (exec (configure m) w)) = bucket (service w) ∧
  timers (exec (configure m) w) = timers w ∧
  (is_Some (Orbit.mode (service w)) →
   is_Some (Orbit.mode (service (exec (configure m) w)))).
Proof.
  destruct (current_mode_dec m w) as [H | H].
  - rewrite exec_configure_same by exact H. now repeat split.
  - rewrite exec_configure_other by exact H. cbn. now repeat split.
Qed.

Lemma step_keeps_environment (op : Op) (w : World) :
  indexedDB (exec (step op) w) = indexedDB w ∧
  bucket (service (exec (step op) w)) = bucket (service w) ∧
  (is_Some (Orbit.mode (service w)) →
   is_Some (Orbit.mode (service (exec (step op) w)))).
Proof.
  assert (Hkeeps : ∀ m : M (), keeps m →
    indexedDB (exec m w) = indexedDB w ∧
    bucket (service (exec m w)) = bucket (service w) ∧
    (is_Some (Orbit.mode (service w)) →
     is_Some (Orbit.mode (service (exec m w))))).
  { intros m Hm. destruct (Hm w) as (A & _ & C & _). now rewrite A, C. }
  destruct op as [m | | t | t e | e |]; cbn [step].
  - rewrite exec_discard.
    destruct (configure_keeps_environment m w) as (A & B & _ & D).
    now repeat split.
  - rewrite exec_discard. unfold beforeModel, exec. rewrite initialize_run.
    destruct (configure_keeps_environment
                (Js.or_else (localStorage w !! "peeps-mode") "offline-only") w)
      as (A & B & _ & D).
    now repeat split.
  - apply Hkeeps, keeps_with_storeLog.
  - apply Hkeeps, keeps_remote_push_fails.
  - apply Hkeeps, keeps_remote_pull_fails.
  - apply Hkeeps, keeps_fire_timer.
Qed.

Lemma run_keeps_environment (ops : list Op) (w : World) :
  indexedDB (run ops w) = indexedDB w ∧
  bucket (service (run ops w)) = bucket (service w) ∧
  (is_Some (Orbit.mode (service w)) →
   is_Some (Orbit.mode (service (run ops w)))).
Proof.
  revert w. induction ops as [|op ops IH]; intros w; [now repeat split|].
  cbn [run fold_left]. fold (run ops (exec (step op) w)).
  destruct (IH (exec (step op) w)) as (A & B & C).
  destruct (step_keeps_environment op w) as (A' & B' & C').
  rewrite A, B, A', B'. repeat split. intros H. now apply C, C'.
Qed.

Lemma booted_environment (indexedDB : bool) (stored : gmap string string)
    (pulled : list Transform) :
  let w := exec boot_application (boot indexedDB stored pulled) in
  outcome boot_application (boot indexedDB stored pulled) = Returned Promise ∧
  Orbit.indexedDB w = indexedDB ∧
  bucket (service w) =
    Some {| bucket_class := IndexedDBBucket;
            bucket_namespace := "peeps-settings" |} ∧
  Orbit.mode (service w) =
    Some (Js.or_else (stored !! "peeps-mode") "offline-only").
Proof.
  unfold boot_application, beforeModel, outcome, exec, mbind, M_bind, bind.
  change (init (boot indexedDB stored pulled))
    with (Returned (), exec init (boot indexedDB stored pulled)).
  cbv beta iota zeta. rewrite initialize_run.
  rewrite configure_run by discriminate. now repeat split.
Qed.

(** The sources a consistent world holds, spelled out. *)
Lemma consistent_sources (m : string) (w : World) :
  consistent w → Orbit.mode (service w) = Some m →
  activated (coordinator w) = true ∧
  strategies (coordinator w) = installed m ∧
  localStorage w !! "peeps-mode" = Some m ∧
  sources (coordinator w) =
    store
    :: (if is_server m then [remote_source (bucket (service w))] else [])
    ++ (if has_backup m
        then [backup_source (supportsIndexedDB w) (bucket (service w))]
        else []).
Proof.
  unfold consistent. intros Hc Hm. rewrite Hm in Hc.
  destruct Hc as (A & B & C & D). rewrite C, added_sources_setup.
  now repeat split.
Qed.

(** *** The backup of a consistent coordinator *)

Lemma consistent_backup (m : string) (w : World) :
  consistent w → Orbit.mode (service w) = Some m →
  activated (coordinator w) = true ∧
  List.find (λ s, source_name s =? "backup") (sources (coordinator w)) =
    if has_backup m
    then Some (backup_source (supportsIndexedDB w) (bucket (service w)))
    else None.
Proof.
  intros Hc Hm. destruct (consistent_sources m w Hc Hm) as (Ha & _ & _ & Hs).
  split; [exact Ha|]. rewrite Hs.
  now destruct (is_server m), (has_backup m).
Qed.

End SessionFacts.

(** ** Further properties of the model and of the service *)

Module Extras.
Import Orbit OrbitConfiguration Scenarios Session.
Import ConfigurationFacts SessionFacts.

(** X1.  The full name of a contact is never the empty string: a contact
    without a usable name is shown as "(No name)". *)
Theorem fullName_never_empty (c : Contact.t) :
  (0 < String.length (Contact.fullName c))%nat.
Proof.
  unfold Contact.fullName.
  destruct (Contact.firstName c) as [[|a f]|],
    (Contact.lastName c) as [[|b l]|]; cbn; unfold String.append; cbn; lia.
Qed.

(** X2.  Calling [configure] twice in a row with the same mode is the same as
    calling it once: the second call stops at the guard, returns [undefined]
    and changes nothing, whatever the first call did. *)
Theorem configure_twice (m : string) (w : World) :
  configure m (exec (configure m) w) =
    (Returned Undefined, exec (configure m) w) ∧
  events (configure m) (exec (configure m) w) = [].
Proof.
  assert (Hm : Orbit.mode (service (exec (configure m) w)) = Some m).
  { destruct (current_mode_dec m w) as [H | H].
    - now rewrite exec_configure_same.
    - now rewrite exec_configure_other. }
  split; [now apply configure_same | now apply events_same_mode].
Qed.

(** X3.  [clearActiveConfiguration] always leaves the coordinator inactive,
    and running it a second time does nothing.  It touches neither the
    service's [mode] nor [localStorage]: after it the service still names the
    mode whose configuration has just been torn down. *)
Theorem clearActiveConfiguration_twice (w : World) :
  let w' := exec clearActiveConfiguration w in
  activated (coordinator w') = false ∧
  clearActiveConfiguration w' = (Returned (), w') ∧
  service w' = service w ∧
  localStorage w' = localStorage w.
Proof.
  intros w'. subst w'. unfold exec.
  rewrite !clearActiveConfiguration_run. cbn [snd]. unfold torn_down.
  destruct (activated (coordinator w)) eqn:Ha.
  - cbn [coordinator activated service localStorage]. repeat split.
  - rewrite Ha. repeat split.
Qed.

(** X4.  Switching from one mode to another leaves nothing of the first
    behind: after [configure m1] then [configure m2] the coordinator holds
    exactly the strategies of [m2], and its sources are the store sources it
    held at the start and the sources of [m2], whatever else it held. *)
Theorem reconfigure_leaves_no_leftover (m1 m2 : string) (w : World) :
  Orbit.mode (service w) ≠ Some m1 →
  m2 ≠ m1 →
  let w' := exec (configure m2) (exec (configure m1) w) in
  activated (coordinator w') = true ∧
  strategies (coordinator w') = installed m2 ∧
  sources (coordinator w') =
    List.filter is_store (sources (coordinator w))
    ++ added_sources
         (setup_events m2 (supportsIndexedDB w) (bucket (service w))).
Proof.
  intros H1 H2 w'. subst w'.
  rewrite (exec_configure_other m1 w) by exact H1.
  set (w1 := reconfigured m1 w).
  assert (Hm : Orbit.mode (service w1) ≠ Some m2) by (cbn; congruence).
  rewrite exec_configure_other by exact Hm.
  destruct (torn_down_active w1 eq_refl) as [Hst Hs].
  rewrite coordinator_reconfigured, Hst, Hs.
  cbn [activated strategies sources app].
  split; [reflexivity|]. split; [reflexivity|]. f_equal.
  subst w1. rewrite coordinator_reconfigured. cbn [sources].
  now rewrite List.filter_app, only_the_store_gone, app_nil_r,
    torn_down_stores.
Qed.

Lemma reconfigure_leaves_no_leftover_witness :
  map strategy_name
    (strategies
       (coordinator
          (exec (configure "memory-only") (session "optimistic-server"))))
  = ["event-logging"; "log-truncation"] ∧
  sources
    (coordinator
       (exec (configure "memory-only") (session "optimistic-server")))
  = [store].
Proof.
  destruct (reconfigure_leaves_no_leftover "optimistic-server" "memory-only"
              (exec init (boot true ∅ [])))
    as (_ & Hst & Hs); [discriminate | discriminate |].
  split.
  - unfold session. now rewrite Hst.
  - unfold session. now rewrite Hs.
Defined.

(** X5.  [configure] and [initialize] write no [localStorage] key but
    "peeps-mode": every other key keeps its value, and the only item a
    [configure m] ever sets is "peeps-mode" to [m]. *)
Theorem only_the_mode_key_is_written (m key : string) (w : World) :
  key ≠ "peeps-mode" →
  localStorage (exec (configure m) w) !! key = localStorage w !! key ∧
  localStorage (exec initialize w) !! key = localStorage w !! key ∧
  Forall (λ e, ∀ k v, e = LocalStorageSetItem k v → k = "peeps-mode" ∧ v = m)
    (events (configure m) w).
Proof.
  intros Hkey.
  assert (Hany : ∀ m', localStorage (exec (configure m') w) !! key
                       = localStorage w !! key).
  { intros m'. destruct (current_mode_dec m' w) as [H | H].
    - now rewrite exec_configure_same.
    - rewrite exec_configure_other by exact H. cbn [reconfigured localStorage].
      apply lookup_insert_ne. congruence. }
  split; [apply Hany|]. split.
  - unfold exec. rewrite initialize_run. apply Hany.
  - destruct (current_mode_dec m w) as [H | H].
    + rewrite events_same_mode by exact H. constructor.
    + rewrite configure_events_run by exact H. unfold configure_events.
      apply List.Forall_app; split;
        [constructor; [discriminate | constructor]|].
      apply List.Forall_app; split; [apply teardown_all; discriminate|].
      apply List.Forall_app; split.
      * constructor; [|constructor]. intros k v [= <- <-]. now split.
      * apply List.Forall_app; split;
          [apply setup_all | apply activation_all]; discriminate.
Qed.

Lemma only_the_mode_key_is_written_witness :
  localStorage
    (exec (configure "memory-only")
       (exec init (boot true {["theme" := "dark"]} [])))
  !! "theme" = Some "dark".
Proof.
  rewrite (proj1 (only_the_mode_key_is_written "memory-only" "theme"
                    (exec init (boot true {["theme" := "dark"]} []))
                    ltac:(discriminate))).
  vm_compute. reflexivity.
Defined.

(** X6.  A mode-changing [configure] on an active coordinator that holds the
    store empties the store's transform log: transforms logged before the
    switch are forgotten, so a later push failure for one of them finds
    nothing to roll back. *)
Theorem switch_empties_the_store_log (m : string) (w : World) :
  Orbit.mode (service w) ≠ Some m →
  activated (coordinator w) = true →
  existsb is_store (sources (coordinator w)) = true →
  storeLog (exec (configure m) w) = [] ∧
  ∀ t, existsb (String.eqb (id t)) (storeLog (exec (configure m) w)) = false.
Proof.
  intros Hm Ha Hs.
  assert (Hlog : storeLog (exec (configure m) w) = []).
  { rewrite exec_configure_other by exact Hm.
    unfold reconfigured, torn_down. cbn [storeLog]. rewrite Ha.
    cbn [storeLog]. rewrite Hs. now destruct (has_backup m). }
  split; [exact Hlog|]. intros t. now rewrite Hlog.
Qed.

Lemma switch_empties_the_store_log_witness :
  storeLog (busy_session "pessimistic-server") = ["t1"; "t2"; "t3"] ∧
  storeLog (exec (configure "memory-only") (busy_session "pessimistic-server"))
  = [].
Proof.
  split; [reflexivity|].
  apply (switch_empties_the_store_log "memory-only"
           (busy_session "pessimistic-server"));
    [discriminate | reflexivity | reflexivity].
Defined.

(** X7.  Once a call [configure m] with a new, non-empty mode has run,
    [initialize] in the same session does nothing: the stored mode is the
    current one, so the call stops at the guard of [configure]. *)
Theorem initialize_after_configure (m : string) (w : World) :
  Orbit.mode (service w) ≠ Some m →
  m ≠ "" →
  initialize (exec (configure m) w) =
    (Returned Undefined, exec (configure m) w).
Proof.
  intros Hm Hne. rewrite initialize_run.
  rewrite (exec_configure_other m w) by exact Hm.
  cbn [reconfigured localStorage]. rewrite lookup_insert_eq.
  rewrite or_else_nonempty by exact Hne.
  now apply configure_same.
Qed.

Lemma initialize_after_configure_witness :
  initialize (session "pessimistic-server") =
    (Returned Undefined, session "pessimistic-server").
Proof.
  apply (initialize_after_configure "pessimistic-server"
           (exec init (boot true ∅ []))); discriminate.
Defined.

(** X8.  A failed push or pull never changes the configuration: whatever
    strategies the coordinator holds and whatever the error, the callbacks
    leave the service's mode and bucket, [localStorage] and the coordinator's
    activation, sources and strategies as they were, also when a [catch]
    rethrows. *)
Theorem failures_keep_the_configuration (t : Transform) (e : JsError)
    (w : World) :
  same_configuration w (exec (remote_push_fails t e) w) ∧
  same_configuration w (exec (remote_pull_fails e) w) ∧
  same_configuration w (exec (pushFail_action t e) w).
Proof.
  split; [apply keeps_remote_push_fails|].
  split; [apply keeps_remote_pull_fails | apply keeps_pushFail_action].
Qed.

(** X9.  After the [pushFail] action has handled an error that is not a
    NetworkError, the failing transform is no longer in the store's log, and
    the log is a prefix of what it was: the entries logged after the failing
    transform are dropped with it.  Handling the same failure again therefore
    rolls nothing back. *)
Theorem failed_transform_leaves_the_log (t : Transform) (e : JsError)
    (w : World) :
  instanceof_NetworkError e = false →
  let w' := exec (pushFail_action t e) w in
  existsb (String.eqb (id t)) (storeLog w') = false ∧
  (∃ dropped, storeLog w = storeLog w' ++ dropped) ∧
  events (pushFail_action t e) w' =
    [Alert (alert_text t); RequestQueueSkip "remote"].
Proof.
  intros He w'.
  assert (Hlog : existsb (String.eqb (id t)) (storeLog w') = false ∧
                 ∃ dropped, storeLog w = storeLog w' ++ dropped).
  { subst w'. unfold exec. rewrite pushFail_action_other by exact He.
    cbn [snd]. unfold with_storeLog, with_trace. cbn [storeLog].
    destruct (existsb (String.eqb (id t)) (storeLog w)) eqn:Hl.
    - destruct (rollback_to_before _ _ Hl) as (earlier & later & H1 & H2 & H3).
      rewrite H3. split; [now apply not_in_not_contained|].
      now exists (id t :: later).
    - split; [exact Hl|]. exists []. now rewrite app_nil_r. }
  destruct Hlog as [Hgone Hprefix]. split; [exact Hgone|].
  split; [exact Hprefix|].
  apply events_appended. unfold exec at 1.
  rewrite pushFail_action_other by exact He.
  cbn [snd]. rewrite Hgone. unfold with_storeLog, with_trace. reflexivity.
Qed.

Lemma failed_transform_leaves_the_log_witness :
  let w' :=
    exec (pushFail_action add_contact unprocessable)
      (busy_session "optimistic-server") in
  storeLog w' = ["t1"] ∧
  events (pushFail_action add_contact unprocessable) w' =
    [Alert (alert_text add_contact); RequestQueueSkip "remote"].
Proof.
  intros w'. split; [reflexivity|].
  exact (proj2 (proj2
           (failed_transform_leaves_the_log add_contact unprocessable
              (busy_session "optimistic-server") eq_refl))).
Defined.

(** X11.  [configure] never cancels a timer: the retries that are pending
    stay pending through any reconfiguration, and when the oldest one fires
    afterwards it still retries the request queue of the source named
    "remote", whether or not the new mode has one. *)
Theorem retries_survive_reconfiguration (m : string) (w : World) :
  timers (exec (configure m) w) = timers w ∧
  (timers w ≠ [] →
   events fire_timer (exec (configure m) w) = [RequestQueueRetry "remote"] ∧
   timers (exec fire_timer (exec (configure m) w)) = tail (timers w)).
Proof.
  destruct (configure_keeps_environment m w) as (_ & _ & Ht & _).
  split; [exact Ht|]. intros Hne.
  set (w1 := exec (configure m) w) in *.
  destruct (timers w) as [|[[] ms] rest] eqn:Hw; [contradiction|].
  split.
  - apply events_appended. unfold exec, fire_timer, bind, gets.
    rewrite Ht. reflexivity.
  - unfold exec, fire_timer, bind, gets. rewrite Ht. reflexivity.
Qed.

Lemma retries_survive_reconfiguration_witness :
  let w :=
    exec (remote_push_fails add_contact offline)
      (session "optimistic-server") in
  sources (coordinator (exec (configure "memory-only") w)) = [store] ∧
  events fire_timer (exec (configure "memory-only") w)
  = [RequestQueueRetry "remote"].
Proof.
  intros w. split; [reflexivity|].
  apply (proj2 (retries_survive_reconfiguration "memory-only" w)).
  discriminate.
Defined.

(** X12.  Throughout a session the service, the stored setting and the
    coordinator agree.  After the application has booted, and after any
    sequence of mode choices, [initialize] calls, logged transforms, failed
    pushes and pulls and timers firing, there is a current mode; it is the
    one stored under "peeps-mode"; the coordinator is active and holds
    exactly the strategies of that mode; and its sources are the store, then
    the remote source in a server mode, then the backup source in a mode with
    a backup, both built on the settings bucket that [init] created.  The
    bucket and the backup source are the IndexedDB ones, whether or not the
    browser has IndexedDB. *)
Theorem session_stays_consistent (indexedDB : bool)
    (stored : gmap string string) (pulled : list Transform)
    (ops : list Op) :
  let w := run ops (exec boot_application (boot indexedDB stored pulled)) in
  let settings :=
    Some {| bucket_class := IndexedDBBucket;
            bucket_namespace := "peeps-settings" |} in
  ∃ m,
    Orbit.mode (service w) = Some m ∧
    localStorage w !! "peeps-mode" = Some m ∧
    activated (coordinator w) = true ∧
    strategies (coordinator w) = installed m ∧
    sources (coordinator w) =
      store
      :: (if is_server m then [remote_source settings] else [])
      ++ (if has_backup m then [backup_source true settings] else []).
Proof.
  intros w settings.
  set (w0 := exec boot_application (boot indexedDB stored pulled)) in *.
  destruct (booted_environment indexedDB stored pulled)
    as (_ & _ & Hb & Hm0).
  fold w0 in Hb, Hm0.
  destruct (run_keeps_environment ops w0) as (_ & Hb' & Hsome).
  fold w in Hb', Hsome.
  destruct Hsome as [m Hm]; [now rewrite Hm0|].
  assert (Hc : consistent w)
    by (apply run_consistent, booted_consistent).
  destruct (consistent_sources m w Hc Hm) as (A & B & C & D).
  exists m. rewrite D, Hb', Hb. now repeat split.
Qed.

(** X13.  When the application boots, the application route's [beforeModel]
    returns a promise, and once it has run the service is in the mode stored
    under "peeps-mode", or in offline-only when nothing or the empty string
    is stored there; the coordinator is active with the strategies of that
    mode, and the mode is stored for the next boot.  A stored string that is
    none of the advertised modes is configured all the same. *)
Theorem boot_configures_the_stored_mode (indexedDB : bool)
    (stored : gmap string string) (pulled : list Transform) :
  let w := exec boot_application (boot indexedDB stored pulled) in
  let mode := Js.or_else (stored !! "peeps-mode") "offline-only" in
  outcome boot_application (boot indexedDB stored pulled) = Returned Promise ∧
  Orbit.mode (service w) = Some mode ∧
  in_mode mode w ∧
  localStorage w !! "peeps-mode" = Some mode ∧
  (Js.blank (stored !! "peeps-mode") → mode = "offline-only") ∧
  (∀ s, stored !! "peeps-mode" = Some s → s ≠ "" → mode = s).
Proof.
  intros w mode.
  destruct (booted_environment indexedDB stored pulled) as (Ho & _ & _ & Hm).
  fold w in Hm. fold mode in Hm.
  assert (Hc : consistent w) by apply booted_consistent.
  destruct (consistent_sources mode w Hc Hm) as (A & B & C & _).
  split; [exact Ho|]. split; [exact Hm|]. split; [now split|].
  split; [exact C|]. split.
  - intros Hb. subst mode. now apply or_else_blank.
  - intros s Hs Hne. subst mode. rewrite Hs. now apply or_else_nonempty.
Qed.

(** X14.  In a session, right after any call [configure id] with one of the
    four advertised modes, the names of the registered sources spell the
    advertised description of the mode, also when the call was stopped by the
    same-mode guard. *)
Theorem sources_spell_the_description (indexedDB : bool)
    (stored : gmap string string) (pulled : list Transform)
    (ops : list Op) (id description : string) :
  In (id, description) availableModes →
  let w := run ops (exec boot_application (boot indexedDB stored pulled)) in
  String.concat " + "
    (map source_name (sources (coordinator (exec (configure id) w))))
  = description.
Proof.
  intros Hin w.
  assert (Hc : consistent (exec (configure id) w)).
  { apply configure_consistent, run_consistent, booted_consistent. }
  assert (Hm : Orbit.mode (service (exec (configure id) w)) = Some id).
  { destruct (current_mode_dec id w) as [H | H].
    - now rewrite exec_configure_same.
    - now rewrite exec_configure_other. }
  destruct (consistent_sources id _ Hc Hm) as (_ & _ & _ & Hs).
  rewrite Hs. cbn in Hin.
  destruct Hin as [[= <- <-] | [[= <- <-] | [[= <- <-] | [[= <- <-] | []]]]];
    reflexivity.
Qed.

Lemma sources_spell_the_description_witness :
  String.concat " + "
    (map source_name
       (sources
          (coordinator
             (exec (configure "optimistic-server")
                (run [Configure "memory-only";
                      Configure "optimistic-server";
                      PushFails add_contact unprocessable]
                   (exec boot_application (boot true ∅ [])))))))
  = "store + remote + backup".
Proof.
  apply (sources_spell_the_description true ∅ []
           [Configure "memory-only"; Configure "optimistic-server";
            PushFails add_contact unprocessable]
           "optimistic-server" "store + remote + backup").
  cbn. tauto.
Defined.

(** X15.  [configure] does not check its argument against the advertised
    modes.  A mode-changing call with any other string succeeds like
    memory-only: it adds the two logging strategies and no source, activates
    the coordinator once, makes the string the current mode and stores it, so
    that the next boot configures it again. *)
Theorem unknown_mode_is_accepted (m : string) (w : World) :
  Orbit.mode (service w) ≠ Some m →
  ¬ In m (map fst availableModes) →
  outcome (configure m) w = Returned Promise ∧
  Orbit.mode (service (exec (configure m) w)) = Some m ∧
  localStorage (exec (configure m) w) !! "peeps-mode" = Some m ∧
  installed m = [EventLoggingStrategy; LogTruncationStrategy] ∧
  added_sources (events (configure m) w) = [] ∧
  events (configure m) w =
    ConsoleLog [LogStr "[orbit-configuration]"; LogStr "mode"; LogStr m]
    :: teardown_events (coordinator w)
    ++ [ LocalStorageSetItem "peeps-mode" m;
         AddStrategy EventLoggingStrategy;
         AddStrategy LogTruncationStrategy;
         CoordinatorActivate ].
Proof.
  intros Hm Hunknown.
  assert (Hs : is_server m = false).
  { destruct (is_server m) eqn:H; [|reflexivity].
    apply is_server_iff in H as [-> | ->]; exfalso; apply Hunknown;
      cbn; tauto. }
  assert (Hb : has_backup m = false).
  { destruct (has_backup m) eqn:H; [|reflexivity].
    apply has_backup_iff in H as [-> | ->]; exfalso; apply Hunknown;
      cbn; tauto. }
  split; [unfold outcome; now rewrite configure_run|].
  rewrite exec_configure_other by exact Hm.
  split; [reflexivity|]. split; [apply lookup_insert_eq|].
  split; [unfold installed, setup_events; now rewrite Hs, Hb|].
  rewrite added_sources_configure by exact Hm. rewrite Hs, Hb.
  split; [reflexivity|].
  rewrite configure_events_run by exact Hm.
  unfold configure_events, setup_events, activation_events.
  now rewrite Hs, Hb.
Qed.

Lemma unknown_mode_is_accepted_witness :
  Orbit.mode (service (session "turbo")) = Some "turbo" ∧
  added_sources (events (configure "turbo") (exec init (boot true ∅ []))) = [].
Proof.
  assert (H : ¬ In "turbo" (map fst availableModes)).
  { cbn. intros [H | [H | [H | [H | []]]]]; discriminate H. }
  destruct (unknown_mode_is_accepted "turbo" (exec init (boot true ∅ []))
              ltac:(discriminate) H) as (_ & Hm & _ & _ & Ha & _).
  split; [exact Hm | exact Ha].
Defined.

(** X16.  The backup's browser storage is reset exactly when the service
    leaves a mode that has a backup: in a consistent session, a call
    [configure m'] that changes the mode resets the source named "backup" if
    and only if the mode being left is offline-only or optimistic-server,
    also when the new mode has a backup of its own, and it resets no other
    source. *)
Theorem backup_reset_when_leaving_a_backup_mode (m m' : string) (w : World) :
  consistent w →
  Orbit.mode (service w) = Some m →
  m' ≠ m →
  (In (SourceReset "backup") (events (configure m') w)
   ↔ m = "offline-only" ∨ m = "optimistic-server") ∧
  (∀ n, In (SourceReset n) (events (configure m') w) → n = "backup").
Proof.
  intros Hc Hm Hne.
  destruct (consistent_backup m w Hc Hm) as [Ha Hfind].
  assert (Hev : events (configure m') w = configure_events m' w)
    by (apply configure_events_run; rewrite Hm; congruence).
  assert (Hall : Forall (λ e, ∀ n, e = SourceReset n →
                              n = "backup" ∧ has_backup m = true)
                   (events (configure m') w)).
  { rewrite Hev. unfold configure_events.
    apply List.Forall_app; split;
      [constructor; [discriminate | constructor]|].
    apply List.Forall_app; split.
    - unfold teardown_events. rewrite Ha, Hfind.
      apply List.Forall_app; split; [repeat constructor; discriminate|].
      apply List.Forall_app; split.
      + destruct (has_backup m); [|constructor].
        constructor; [|constructor]. intros n [= <-]. now split.
      + apply List.Forall_app; split; [repeat constructor; discriminate|].
        apply List.Forall_app; split.
        * apply Forall_map, List.Forall_forall. discriminate.
        * apply Forall_flat_map, List.Forall_forall. intros s _.
          unfold source_teardown.
          destruct (is_server m), (is_store s);
            repeat constructor; discriminate.
    - apply List.Forall_app; split;
        [constructor; [discriminate | constructor]|].
      apply List.Forall_app; split;
        [apply setup_all | apply activation_all]; discriminate. }
  rewrite List.Forall_forall in Hall. split; [split|].
  - intros Hin. apply has_backup_iff. now apply (Hall _ Hin "backup").
  - intros Hb%has_backup_iff. rewrite Hev. unfold configure_events.
    apply in_app_iff. right. apply in_app_iff. left.
    unfold teardown_events. rewrite Ha, Hfind, Hb.
    apply in_app_iff. right. apply in_app_iff. left. now left.
  - intros n Hin. now apply (Hall _ Hin n).
Qed.

Lemma backup_reset_when_leaving_a_backup_mode_witness :
  In (SourceReset "backup")
    (events (configure "optimistic-server") (session "offline-only")).
Proof.
  assert (Hc : consistent (session "offline-only"))
    by (vm_compute; repeat split).
  assert (Hm : Orbit.mode (service (session "offline-only"))
               = Some "offline-only") by (vm_compute; reflexivity).
  apply (proj1 (backup_reset_when_leaving_a_backup_mode
                  "offline-only" "optimistic-server" (session "offline-only")
                  Hc Hm ltac:(discriminate))).
  left. reflexivity.
Defined.

End Extras.
